(** * process_text.py: a shallow embedding and its verified properties

    The script [scripts/process_text.py] normalises Japanese text with a
    fixed chain of rewrite passes.  Python strings are sequences of Unicode
    code points, so a string is a [list Z] here.  The passes are written
    with [re.sub], [re.search] and [str.replace]; the part of Python's [re]
    the script relies on is modelled by a small backtracking matcher, and
    every pattern of the script is transcribed as a term of that matcher.
    The random identifiers drawn by [uuid.uuid4] come from an explicit
    stream of 128-bit draws. *)

From Stdlib Require Import ZArith NArith List Bool Lia String Ascii.
Import ListNotations.

Local Open Scope Z_scope.
Local Open Scope list_scope.

(** ** Strings *)

Definition char : Type := Z.
Definition pystr : Type := list char.

(** An ASCII literal of the source, as code points. *)
Definition str (s : string) : pystr :=
  map (fun a => Z.of_nat (nat_of_ascii a)) (list_ascii_of_string s).
Arguments str s%_string.

Definition ch (a : ascii) : char := Z.of_nat (nat_of_ascii a).
Arguments ch a%_char.

Fixpoint eqb_str (a b : pystr) : bool :=
  match a, b with
  | [], [] => true
  | x :: a', y :: b' => (x =? y) && eqb_str a' b'
  | _, _ => false
  end.

(** [startswith p t]: [p] is a prefix of [t]. *)
Fixpoint startswith (p t : pystr) : bool :=
  match p, t with
  | [], _ => true
  | x :: p', y :: t' => (x =? y) && startswith p' t'
  | _ :: _, [] => false
  end.

(** [contains p t]: Python's [p in t]. *)
Fixpoint contains (p t : pystr) : bool :=
  startswith p t ||
  match t with
  | [] => false
  | _ :: t' => contains p t'
  end.

(** Number of (possibly overlapping) positions of [t] where [p] starts. *)
Fixpoint occurrences (p t : pystr) : nat :=
  ((if startswith p t then 1 else 0) +
   match t with
   | [] => 0
   | _ :: t' => occurrences p t'
   end)%nat.

(** ** [str.replace]

    Leftmost, non-overlapping replacement.  [skip] counts the characters of
    a replaced occurrence that are still to be passed over. *)

Fixpoint replace_go (old new : pystr) (skip : nat) (text : pystr) : pystr :=
  match text with
  | [] => []
  | c :: tl =>
      match skip with
      | S k => replace_go old new k tl
      | O =>
          if startswith old text
          then new ++ replace_go old new (Nat.pred (List.length old)) tl
          else c :: replace_go old new 0 tl
      end
  end.

Definition replace (old new text : pystr) : pystr :=
  match old with
  | [] => new ++ flat_map (fun c => c :: new) text
  | _ :: _ => replace_go old new 0 text
  end.

(** ** The fragment of [re] used by the script *)

Module Re.

(** Character classes are predicates on code points. *)
Definition cls : Type := char -> bool.

Definition only (c : char) : cls := fun x => x =? c.
Definition range (a b : char) : cls := fun x => (a <=? x) && (x <=? b).
Definition union (p q : cls) : cls := fun x => p x || q x.
Definition none_of (l : pystr) : cls := fun x => negb (existsb (Z.eqb x) l).

(** [\s] on a [str] pattern: the characters for which [str.isspace]
    holds. *)
Definition space : cls := fun x =>
  range 9 13 x || range 28 32 x || (x =? 0x85) || (x =? 0xA0) ||
  (x =? 0x1680) || range 0x2000 0x200A x || (x =? 0x2028) ||
  (x =? 0x2029) || (x =? 0x202F) || (x =? 0x205F) || (x =? 0x3000).

Definition lower_letter : cls := range 97 122.

(** A literal character under [re.IGNORECASE]: a lower-case ASCII letter
    also matches its upper-case form and the few other characters whose
    lower-case form it is or that [re] treats as equivalent (U+0130 and
    U+0131 for [i], U+017F for [s], U+212A for [k]); an uncased character
    matches itself only. *)
Definition ci (c : char) : cls := fun x =>
  (x =? c) ||
  (lower_letter c &&
   ((x =? c - 32) ||
    ((c =? 105) && ((x =? 0x130) || (x =? 0x131))) ||
    ((c =? 115) && (x =? 0x17F)) ||
    ((c =? 107) && (x =? 0x212A)))).

Inductive regex : Type :=
| Chr (p : cls)                         (* one character of a class *)
| Cat (r1 r2 : regex)                   (* r1 r2 *)
| Rep (greedy : bool) (least : nat) (p : cls)
                                        (* [p]* [p]+ [p]*? [p]+? *)
| Opt (r : regex)                       (* (r)? *)
| Grp (r : regex)                       (* group 1 *)
| Behind (positive : bool) (p : cls)    (* (?<=[p]) (?<![p]) *)
| Ahead (positive : bool) (p : cls).    (* (?=[p]) (?![p]) *)

(** A position of the matcher: the character before it, the characters
    taken since the start of the match (latest first), the rest of the
    subject and the text of group 1. *)
Record mstate : Type := MState {
  ms_prev : option char;
  ms_taken : pystr;
  ms_rest : pystr;
  ms_group : option pystr
}.

(** The positions reached by taking 0, 1, 2, ... characters of class [p]. *)
Fixpoint rep_from (p : cls) (prev : option char) (taken rest : pystr)
         (g : option pystr) : list mstate :=
  MState prev taken rest g ::
  match rest with
  | c :: tl => if p c then rep_from p (Some c) (c :: taken) tl g else []
  | [] => []
  end.

Definition holds (p : cls) (o : option char) : bool :=
  match o with
  | Some c => p c
  | None => false
  end.

(** All the ways [r] matches from a position, in the order in which a
    backtracking matcher tries them: the head is the match [re] reports. *)
Fixpoint matches (r : regex) (st : mstate) : list mstate :=
  match r with
  | Chr p =>
      match ms_rest st with
      | c :: tl =>
          if p c
          then [MState (Some c) (c :: ms_taken st) tl (ms_group st)]
          else []
      | [] => []
      end
  | Cat r1 r2 => flat_map (matches r2) (matches r1 st)
  | Rep greedy least p =>
      let l := skipn least
                 (rep_from p (ms_prev st) (ms_taken st) (ms_rest st)
                    (ms_group st)) in
      if greedy then rev l else l
  | Opt r1 => matches r1 st ++ [st]
  | Grp r1 =>
      map (fun st' =>
             MState (ms_prev st') (ms_taken st') (ms_rest st')
               (Some (rev (firstn (List.length (ms_taken st') -
                                   List.length (ms_taken st))
                                  (ms_taken st')))))
          (matches r1 st)
  | Behind positive p =>
      if Bool.eqb (holds p (ms_prev st)) positive then [st] else []
  | Ahead positive p =>
      if Bool.eqb (holds p (hd_error (ms_rest st))) positive
      then [st] else []
  end.

(** A match object: [group()] and [group(1)]. *)
Record match_obj : Type := Match {
  group0 : pystr;
  group1 : option pystr
}.

(** The match of [r] that starts at the current position, if any. *)
Definition match_at (r : regex) (prev : option char) (text : pystr)
  : option match_obj :=
  match matches r (MState prev [] text None) with
  | st :: _ => Some (Match (rev (ms_taken st)) (ms_group st))
  | [] => None
  end.

(** [re.search]: the leftmost match. *)
Fixpoint search_from (r : regex) (prev : option char) (text : pystr)
  : option match_obj :=
  match match_at r prev text with
  | Some m => Some m
  | None =>
      match text with
      | [] => None
      | c :: tl => search_from r (Some c) tl
      end
  end.

Definition search (r : regex) (text : pystr) : option match_obj :=
  search_from r None text.

(** The subject cut into the characters kept and the matches found, left
    to right, matches not overlapping.  Every pattern of the script takes
    at least one character ([patterns_take_a_character] below), so an
    empty match, which would be kept as a character here, does not
    arise. *)
Inductive piece : Type :=
| Keep (c : char)
| Hit (m : match_obj).

Fixpoint finditer_go (r : regex) (prev : option char) (skip : nat)
         (text : pystr) : list piece :=
  match text with
  | [] => []
  | c :: tl =>
      match skip with
      | S k => finditer_go r (Some c) k tl
      | O =>
          match match_at r prev text with
          | Some m =>
              match List.length (group0 m) with
              | S k => Hit m :: finditer_go r (Some c) k tl
              | O => Keep c :: finditer_go r (Some c) 0 tl
              end
          | None => Keep c :: finditer_go r (Some c) 0 tl
          end
      end
  end.

Definition finditer (r : regex) (text : pystr) : list piece :=
  finditer_go r None 0 text.

(** [re.sub(r, repl, text)] with a function [repl]. *)
Definition sub (r : regex) (repl : match_obj -> pystr) (text : pystr)
  : pystr :=
  flat_map (fun p => match p with
                     | Keep c => [c]
                     | Hit m => repl m
                     end) (finditer r text).

(** [re.sub] with a function that also updates the variables it closes
    over, gathered in a state [S]. *)
Fixpoint fill {S : Type} (repl : match_obj -> S -> pystr * S)
         (ps : list piece) (s : S) : pystr * S :=
  match ps with
  | [] => ([], s)
  | Keep c :: tl =>
      let (out, s') := fill repl tl s in (c :: out, s')
  | Hit m :: tl =>
      let (key, s1) := repl m s in
      let (out, s2) := fill repl tl s1 in
      (key ++ out, s2)
  end.

Definition sub_st {S : Type} (r : regex)
           (repl : match_obj -> S -> pystr * S) (text : pystr) (s : S)
  : pystr * S :=
  fill repl (finditer r text) s.

(** A literal string, and a literal string under [re.IGNORECASE]. *)
Fixpoint lit_with (f : char -> cls) (c : char) (l : pystr) : regex :=
  match l with
  | [] => Chr (f c)
  | d :: l' => Cat (Chr (f c)) (lit_with f d l')
  end.

(** A pattern that cannot match the empty string. *)
Fixpoint takes_one (r : regex) : bool :=
  match r with
  | Chr _ => true
  | Cat r1 r2 => takes_one r1 || takes_one r2
  | Rep _ least _ => negb (Nat.eqb least 0)
  | Opt _ => false
  | Grp r1 => takes_one r1
  | Behind _ _ | Ahead _ _ => false
  end.

End Re.

Import Re.

Infix ";;" := Cat (at level 61, right associativity).

(** ** [uuid.uuid4().hex]

    [uuid4] takes sixteen random bytes, forces the version and variant bits
    and [hex] prints the 128-bit value as 32 lower-case hexadecimal digits.
    The draws of one run of the script are a stream [rand]. *)

Definition uuid4 (r : N) : N :=
  let x := (r mod 2 ^ 128)%N in
  let x := N.ldiff x (N.shiftl 0xc000 48) in
  let x := N.lor x (N.shiftl 0x8000 48) in
  let x := N.ldiff x (N.shiftl 0xf000 64) in
  N.lor x (N.shiftl 4 76).

Definition hexdigit (d : N) : char :=
  if (d <? 10)%N then 48 + Z.of_N d else 87 + Z.of_N d.

Definition hex (u : N) : pystr :=
  map (fun i => hexdigit ((u / 16 ^ N.of_nat i) mod 16)%N) (rev (seq 0 32)).

(** ** The protection map: a Python [dict], which keeps insertion order and
    overwrites the value of a key it already holds. *)

Definition dict : Type := list (pystr * pystr).

Fixpoint dict_set (d : dict) (k v : pystr) : dict :=
  match d with
  | [] => [(k, v)]
  | (k', v') :: d' =>
      if eqb_str k' k then (k', v) :: d' else (k', v') :: dict_set d' k v
  end.

Definition keys (d : dict) : list pystr := map fst d.
Definition values (d : dict) : list pystr := map snd d.

(** ** The passes of the script *)

(** What the replacer functions of [extract_protected_regions] close over:
    the map [protected], and the number of identifiers drawn so far. *)
Record protect_state : Type := ProtectState {
  draws : nat;
  protected : dict
}.

Section Script.

Variable rand : nat -> N.

Definition tag_replacer (m : match_obj) (s : protect_state)
  : pystr * protect_state :=
  let key := str "__HTML_TAG_" ++ hex (uuid4 (rand (draws s))) ++ str "__" in
  (key, ProtectState (S (draws s)) (dict_set (protected s) key (group0 m))).

Definition markdown_link_replacer (m : match_obj) (s : protect_state)
  : pystr * protect_state :=
  let key :=
    str "__MARKDOWN_LINK_" ++ hex (uuid4 (rand (draws s))) ++ str "__" in
  (key, ProtectState (S (draws s)) (dict_set (protected s) key (group0 m))).

(** [<[^<>]+>] *)
Definition tag_pattern : regex :=
  Chr (only (ch "<")) ;; Rep true 1 (none_of (str "<>")) ;;
  Chr (only (ch ">")).

(** [!\[[^\]]*\]\([^\)]*\)] *)
Definition image_pattern : regex :=
  Chr (only (ch "!")) ;; Chr (only (ch "[")) ;;
  Rep true 0 (none_of (str "]")) ;; Chr (only (ch "]")) ;;
  Chr (only (ch "(")) ;; Rep true 0 (none_of (str ")")) ;;
  Chr (only (ch ")")).

(** [\[[^\]]+\]\([^\)]+\)] *)
Definition link_pattern : regex :=
  Chr (only (ch "[")) ;; Rep true 1 (none_of (str "]")) ;;
  Chr (only (ch "]")) ;; Chr (only (ch "(")) ;;
  Rep true 1 (none_of (str ")")) ;; Chr (only (ch ")")).

Definition extract_protected_regions (text : pystr) : pystr * dict :=
  let s := ProtectState 0 [] in
  let (text, s) := sub_st tag_pattern tag_replacer text s in
  let (text, s) := sub_st image_pattern markdown_link_replacer text s in
  let (text, s) := sub_st link_pattern markdown_link_replacer text s in
  (text, protected s).

End Script.

Definition restore_protected_regions (text : pystr) (protected : dict)
  : pystr :=
  fold_left (fun text kv => replace (fst kv) (snd kv) text) protected text.

Definition escape_map : list (char * char) :=
  [ (ch "(", 0xFF08); (ch ")", 0xFF09); (ch "?", 0xFF1F); (ch "!", 0xFF01);
    (ch "-", 0xFF0D); (ch ",", 0xFF0C); (ch ".", 0xFF0E); (ch ":", 0xFF1A);
    (ch ";", 0xFF1B); (ch "[", 0xFF3B); (ch "]", 0xFF3D); (ch "{", 0xFF5B);
    (ch "}", 0xFF5D); (ch "<", 0x3008); (ch ">", 0x3009); (ch "#", 0xFF03);
    (ch "&", 0xFF06); (ch "*", 0xFF0A); (ch "%", 0xFF05); (ch "=", 0xFF1D);
    (ch "+", 0xFF0B); (ch "/", 0xFF0F); (92, 0xFF3C); (ch "|", 0xFF5C);
    (ch "^", 0xFF3E); (ch "~", 0xFF5E); (34, 0xFF02); (ch "'", 0xFF07) ].

(** [escape_map.get(symbol, symbol)] *)
Fixpoint map_get (m : list (char * char)) (symbol default : char) : char :=
  match m with
  | [] => default
  | (k, v) :: m' => if k =? symbol then v else map_get m' symbol default
  end.

(** [[!-/:-@[-`{-~]] *)
Definition symbol : cls :=
  union (range (ch "!") (ch "/"))
    (union (range (ch ":") (ch "@"))
       (union (range (ch "[") (ch "`")) (range (ch "{") (ch "~")))).

(** [\\([!-/:-@[-`{-~])] *)
Definition escaped_pattern : regex := Chr (only 92) ;; Grp (Chr symbol).

Definition group1_text (m : match_obj) : pystr :=
  match group1 m with
  | Some g => g
  | None => []
  end.

Definition convert_escaped_halfwidth_to_fullwidth (text : pystr) : pystr :=
  let replacer (m : match_obj) :=
    map (fun symbol => map_get escape_map symbol symbol) (group1_text m) in
  sub escaped_pattern replacer text.

Definition convert_specific_symbols (text : pystr) : pystr :=
  let text := replace [0xB7] [0x30FB] text in
  let text := replace [0x2500; 0x2500] [0x2E3A] text in
  let text := replace [0x2013; 0x2013] [0x2E3A] text in
  let text := replace (str "...") [0x2026] text in
  let text := replace (str "?") [0xFF1F] text in
  let text := replace [0xFF1F; 32] [0xFF1F] text in
  text.

(** [[A-Za-z0-9]] *)
Definition alnum : cls :=
  union (range (ch "A") (ch "Z"))
    (union (range (ch "a") (ch "z")) (range (ch "0") (ch "9"))).

(** [(?<![A-Za-z0-9])([A-Za-z0-9])(?![A-Za-z0-9])] *)
Definition single_alnum_pattern : regex :=
  Behind false alnum ;; Grp (Chr alnum) ;; Ahead false alnum.

Definition convert_single_halfwidth_alnum_to_fullwidth (text : pystr)
  : pystr :=
  let to_fullwidth (m : match_obj) :=
    map (fun char => char + 0xFEE0) (group0 m) in
  sub single_alnum_pattern to_fullwidth text.

(** [[　-鿿]] *)
Definition cjk : cls := range 0x3000 0x9FFF.

(** [[？！]] *)
Definition question_exclamation : cls := union (only 0xFF1F) (only 0xFF01).

(** [(?<=[　-鿿])[？！](?=[　-鿿])] *)
Definition question_exclamation_pattern : regex :=
  Behind true cjk ;; Chr question_exclamation ;; Ahead true cjk.

Definition add_fullwidth_space_after_question_exclamation (text : pystr)
  : pystr :=
  sub question_exclamation_pattern (fun m => group0 m ++ [0x3000]) text.

(** [　(?=」)] *)
Definition space_before_quote_pattern : regex :=
  Chr (only 0x3000) ;; Ahead true (only 0x300D).

Definition remove_fullwidth_space_before_closing_quote (text : pystr)
  : pystr :=
  sub space_before_quote_pattern (fun _ => []) text.

Definition quote : cls := union (only 34) (only (ch "'")).

(** [src\s*=\s*[Q]([^Q]+)[Q]], where the class [Q] holds the double and
    the single quote character. *)
Definition src_pattern : regex :=
  lit_with only (ch "s") (str "rc") ;; Rep true 0 space ;;
  Chr (only (ch "=")) ;; Rep true 0 space ;; Chr quote ;;
  Grp (Rep true 1 (none_of [34; ch "'"])) ;; Chr quote.

(** [<img\s+[^>]*>] with [re.IGNORECASE] *)
Definition img_pattern : regex :=
  lit_with ci (ch "<") (str "img") ;; Rep true 1 space ;;
  Rep true 0 (none_of (str ">")) ;; Chr (ci (ch ">")).

Definition img_replacer (m : match_obj) : pystr :=
  let tag := group0 m in
  match search src_pattern tag with
  | Some src_match =>
      let src := group1_text src_match in
      str "![](" ++ src ++ str ")"
  | None => tag
  end.

Definition convert_img_to_markdown (text : pystr) : pystr :=
  sub img_pattern img_replacer text.

Definition void_tags : list pystr :=
  [ str "area"; str "base"; str "br"; str "col"; str "embed"; str "hr";
    str "img"; str "input"; str "link"; str "meta"; str "param";
    str "source"; str "track"; str "wbr" ].

(** [<{tag}(\s[^<>]*?)?>] with [re.IGNORECASE] *)
Definition void_pattern (tag : pystr) : regex :=
  lit_with ci (ch "<") tag ;;
  Opt (Grp (Chr space ;; Rep false 0 (none_of (str "<>")))) ;;
  Chr (ci (ch ">")).

(** The template [<{tag}\1 />]; a group that did not take part in the match
    expands to the empty string. *)
Definition void_replacement (tag : pystr) (m : match_obj) : pystr :=
  str "<" ++ tag ++ group1_text m ++ str " />".

Definition convert_html_void_tags_to_xhtml (text : pystr) : pystr :=
  fold_left (fun text tag => sub (void_pattern tag) (void_replacement tag) text)
    void_tags text.

Definition replace_br_tag (text : pystr) : pystr :=
  replace (str "<br>") [10; 10] text.

Definition replace_tag_to_symbol (text : pystr) : pystr :=
  replace (str ">") [0x3009; 0xFF1F] (replace (str "<") [0x3008] text).

(** Stages 5 to 10 of [process_text], between protection and restoration. *)
Definition typography (text : pystr) : pystr :=
  let text := convert_escaped_halfwidth_to_fullwidth text in
  let text := convert_specific_symbols text in
  let text := convert_single_halfwidth_alnum_to_fullwidth text in
  let text := add_fullwidth_space_after_question_exclamation text in
  let text := remove_fullwidth_space_before_closing_quote text in
  let text := convert_html_void_tags_to_xhtml text in
  text.

(** The buffer and the map handed to [restore_protected_regions]. *)
Definition before_restore (rand : nat -> N) (text : pystr) : pystr * dict :=
  let text := convert_img_to_markdown text in
  let text := replace_br_tag text in
  let text := replace_tag_to_symbol text in
  let (text, protected) := extract_protected_regions rand text in
  (typography text, protected).

Definition process_text (rand : nat -> N) (text : pystr) : pystr :=
  let (text, protected) := before_restore rand text in
  restore_protected_regions text protected.

(** * Notions used to state the properties *)

(** The characters a match can start with. *)
Fixpoint first (r : regex) : cls :=
  match r with
  | Chr p => p
  | Cat r1 r2 => fun x => first r1 x || (negb (takes_one r1) && first r2 x)
  | Rep _ _ p => p
  | Opt r1 => first r1
  | Grp r1 => first r1
  | Behind _ _ | Ahead _ _ => fun _ => false
  end.

(** The character before the position reached after passing over [d]. *)
Definition prev_after (prev : option char) (d : pystr) : option char :=
  fold_left (fun _ c => Some c) d prev.

(** What [re.sub] writes for a piece. *)
Definition emit (repl : match_obj -> pystr) (p : piece) : pystr :=
  match p with
  | Keep c => [c]
  | Hit m => repl m
  end.

(** A property [P] of characters holds throughout a matcher position, and
    throughout a piece. *)
Section Invariant.

Variable P : char -> Prop.

Definition ok (st : mstate) : Prop :=
  Forall P (ms_taken st) /\ Forall P (ms_rest st) /\
  forall g, ms_group st = Some g -> Forall P g.

Definition piece_ok (p : piece) : Prop :=
  match p with
  | Keep c => P c
  | Hit m => Forall P (group0 m) /\ Forall P (group1_text m)
  end.

End Invariant.

(** The characters of [uuid4().hex]. *)
Definition hex_char (c : char) : Prop := 48 <= c <= 57 \/ 97 <= c <= 102.

(** The character before position [i] of [text]. *)
Definition char_before (text : pystr) (i : nat) : option char :=
  match i with
  | O => None
  | S j => nth_error text j
  end.

(** Position [i] of [text] holds an ASCII letter or digit that has no ASCII
    letter or digit immediately before or after it. *)
Definition isolated (text : pystr) (i : nat) : bool :=
  holds alnum (nth_error text i) &&
  negb (holds alnum (char_before text i)) &&
  negb (holds alnum (nth_error text (S i))).

(** Position [i] of [text] holds a full-width question or exclamation mark
    with a character of U+3000..U+9FFF immediately before and after it. *)
Definition flanked (text : pystr) (i : nat) : bool :=
  holds question_exclamation (nth_error text i) &&
  holds cjk (char_before text i) &&
  holds cjk (nth_error text (S i)).

(** The text rewritten position by position: [f i c] is what takes the
    place of the character [c] at position [i]. *)
Definition pointwise (f : nat -> char -> pystr) (text : pystr) : pystr :=
  flat_map (fun i => match nth_error text i with
                     | Some c => f i c
                     | None => []
                     end) (seq 0 (List.length text)).

(** The same with the context carried along: [prev] is the character before
    the text. *)
Fixpoint rewrite_from (f : option char -> char -> option char -> pystr)
         (prev : option char) (text : pystr) : pystr :=
  match text with
  | [] => []
  | c :: t => f prev c (hd_error t) ++ rewrite_from f (Some c) t
  end.

(** What the single-alphanumeric pass writes for [c] between [prev] and
    [next]. *)
Definition widen (prev : option char) (c : char) (next : option char)
  : char :=
  if holds alnum (Some c) && negb (holds alnum prev) && negb (holds alnum next)
  then c + 0xFEE0 else c.

(** What the punctuation-spacing pass writes for [c] between [prev] and
    [next]. *)
Definition spaced (prev : option char) (c : char) (next : option char)
  : pystr :=
  if holds question_exclamation (Some c) && holds cjk prev && holds cjk next
  then [c; 0x3000] else [c].

(** The escaped-symbol pass as a scan from the left: a backslash followed by
    a symbol of the class becomes the entry of the table for that symbol, or
    the symbol itself when the table has none; anything else is kept. *)
Fixpoint unescape (text : pystr) : pystr :=
  match text with
  | [] => []
  | x :: tl =>
      match tl with
      | c :: rest =>
          if (x =? 92) && symbol c
          then map_get escape_map c c :: unescape rest
          else x :: unescape tl
      | [] => [x]
      end
  end.

(** The ASCII characters. *)
Definition ascii_chars : pystr := map Z.of_nat (seq 0 128).

(** [text] starts with the literal [pat], character [x] of the text standing
    for character [p] of the literal when [f p x] holds. *)
Fixpoint lit_prefix (f : char -> cls) (pat text : pystr) : bool :=
  match pat, text with
  | [], _ => true
  | p :: pat', x :: text' => f p x && lit_prefix f pat' text'
  | _ :: _, [] => false
  end.

(** The position [n] characters further on. *)
Definition advance (st : mstate) (n : nat) : mstate :=
  MState (prev_after (ms_prev st) (firstn n (ms_rest st)))
         (rev (firstn n (ms_rest st)) ++ ms_taken st)
         (skipn n (ms_rest st)) (ms_group st).

(** A character other than the two ASCII angle brackets, and a text that
    holds neither of them. *)
Definition plain (c : char) : Prop := c <> ch "<" /\ c <> ch ">".
Definition no_angle (text : pystr) : Prop := Forall plain text.

(** The placeholder written for a Markdown link or image. *)
Definition markdown_key (u : N) : pystr :=
  str "__MARKDOWN_LINK_" ++ hex u ++ str "__".

(** The characters of a placeholder: hexadecimal digits, the underscore and
    upper-case ASCII letters. *)
Definition key_char (c : char) : Prop :=
  hex_char c \/ c = 95 \/ 65 <= c <= 90.

(** "Is not this character", for [Forall]. *)
Definition is_not (x : char) (c : char) : Prop := c <> x.

(** An image inside a link, as Markdown writes a linked image. *)
Definition linked_image : pystr := str "[![](a.png)](b)".

(** The link of [linked_image] after its image has been replaced by the
    placeholder of the draw [u]. *)
Definition link_around_key (u : N) : pystr :=
  [ch "["] ++ markdown_key u ++ str "](b)".

(** A pattern without a look-behind. *)
Fixpoint behind_free (r : regex) : bool :=
  match r with
  | Chr _ | Rep _ _ _ | Ahead _ _ => true
  | Cat r1 r2 => behind_free r1 && behind_free r2
  | Opt r1 | Grp r1 => behind_free r1
  | Behind _ _ => false
  end.

(** A position without the character before it. *)
Definition forget (st : mstate) : mstate :=
  MState None (ms_taken st) (ms_rest st) (ms_group st).

(** What [replace_tag_to_symbol] writes for one character. *)
Definition angle_symbol (c : char) : pystr :=
  if c =? ch "<" then [0x3008]
  else if c =? ch ">" then [0x3009; 0xFF1F]
  else [c].

(** Position [i] of [text] holds U+3000 with U+300D right after it. *)
Definition space_before_quote (text : pystr) (i : nat) : bool :=
  holds (only 0x3000) (nth_error text i) &&
  holds (only 0x300D) (nth_error text (S i)).
(** * Properties *)

(** ** Strings *)

Lemma startswith_app (p r : pystr) : startswith p (p ++ r) = true.
Proof.
  induction p as [|x p IH]; simpl; [reflexivity|].
  now rewrite Z.eqb_refl, IH.
Qed.

Lemma startswith_inv (p t : pystr) :
  startswith p t = true -> exists r, t = p ++ r.
Proof.
  revert t; induction p as [|x p IH]; intros t H; simpl in *.
  - now exists t.
  - destruct t as [|y t]; [discriminate|].
    apply andb_true_iff in H as [Hxy Hp].
    apply Z.eqb_eq in Hxy; subst y.
    destruct (IH _ Hp) as [r ->]. now exists r.
Qed.

Lemma startswith_head (x y : char) (p t : pystr) :
  x <> y -> startswith (x :: p) (y :: t) = false.
Proof. intros H; simpl. apply Z.eqb_neq in H. now rewrite H. Qed.

Lemma startswith_short (p t : pystr) :
  (List.length t < List.length p)%nat -> startswith p t = false.
Proof.
  revert t; induction p as [|x p IH]; intros [|y t] H; simpl in *;
    try lia; try reflexivity.
  rewrite IH by lia. apply andb_false_r.
Qed.

Lemma eqb_str_eq (a b : pystr) : eqb_str a b = true <-> a = b.
Proof.
  revert b; induction a as [|x a IH]; intros [|y b]; simpl;
    try (split; [discriminate | congruence]); [tauto|].
  rewrite andb_true_iff, Z.eqb_eq, IH. split.
  - now intros [-> ->].
  - intros H; now inversion H.
Qed.

Lemma eqb_str_refl (a : pystr) : eqb_str a a = true.
Proof. now apply eqb_str_eq. Qed.

Lemma eqb_str_neq (a b : pystr) : a <> b -> eqb_str a b = false.
Proof.
  intros H. destruct (eqb_str a b) eqn:E; [|reflexivity].
  now apply eqb_str_eq in E.
Qed.

Lemma startswith_same_length (p t : pystr) :
  List.length p = List.length t -> startswith p t = eqb_str p t.
Proof.
  revert t; induction p as [|x p IH]; intros [|y t] H; simpl in *;
    try discriminate; [reflexivity|].
  now rewrite IH by lia.
Qed.

Lemma contains_absent (x : char) (p t : pystr) :
  ~ In x t -> contains (x :: p) t = false.
Proof.
  induction t as [|y t IH]; intros H; [reflexivity|].
  cbn [contains]. rewrite startswith_head, IH; [reflexivity| |].
  - intros Hin; apply H; now right.
  - intros ->; apply H; now left.
Qed.

(** ** [str.replace] *)

Lemma replace_go_skip (old new d rest : pystr) :
  replace_go old new (List.length d) (d ++ rest) = replace_go old new 0 rest.
Proof. induction d as [|x d IH]; simpl; [reflexivity | exact IH]. Qed.

Lemma replace_cons_hit (x : char) (old new rest : pystr) :
  replace (x :: old) new ((x :: old) ++ rest) =
  new ++ replace (x :: old) new rest.
Proof.
  pose proof (startswith_app (x :: old) rest) as H.
  unfold replace. cbn [app replace_go] in *. rewrite H.
  cbn [List.length Nat.pred]. now rewrite replace_go_skip.
Qed.

Lemma replace_cons_miss (x c : char) (old new t : pystr) :
  startswith (x :: old) (c :: t) = false ->
  replace (x :: old) new (c :: t) = c :: replace (x :: old) new t.
Proof. intros H. unfold replace. cbn [replace_go]. now rewrite H. Qed.

Lemma replace_absent (x : char) (old new t : pystr) :
  ~ In x t -> replace (x :: old) new t = t.
Proof.
  induction t as [|c t IH]; intros H; [reflexivity|].
  rewrite replace_cons_miss.
  - rewrite IH; [reflexivity|]. intros Hin; apply H; now right.
  - apply startswith_head. intros ->; apply H; now left.
Qed.

Lemma replace_short (x : char) (old new t : pystr) :
  (List.length t < List.length (x :: old))%nat ->
  replace (x :: old) new t = t.
Proof.
  induction t as [|c t IH]; intros H; [reflexivity|].
  rewrite replace_cons_miss by now apply startswith_short.
  rewrite IH; [reflexivity|]. simpl in *; lia.
Qed.

Lemma replace_whole (x : char) (old new : pystr) :
  replace (x :: old) new (x :: old) = new.
Proof.
  rewrite <- (app_nil_r (x :: old)) at 2.
  rewrite replace_cons_hit. cbn. apply app_nil_r.
Qed.

Lemma replace_other (x : char) (old new t : pystr) :
  List.length t = List.length (x :: old) -> t <> x :: old ->
  replace (x :: old) new t = t.
Proof.
  intros Hlen Hne. destruct t as [|c t]; [reflexivity|].
  rewrite replace_cons_miss.
  - rewrite replace_short; [reflexivity|]. simpl in *; lia.
  - rewrite startswith_same_length by now symmetry.
    apply eqb_str_neq. congruence.
Qed.

Lemma replace_go_Forall (P : char -> Prop) (old new : pystr) :
  Forall P new ->
  forall text skip, Forall P text -> Forall P (replace_go old new skip text).
Proof.
  intros Hnew. induction text as [|c t IH]; intros skip H; [constructor|].
  inversion H; subst. cbn [replace_go].
  destruct skip; [|now apply IH].
  destruct (startswith old (c :: t)).
  - apply Forall_app; split; [assumption | now apply IH].
  - constructor; [assumption | now apply IH].
Qed.

Lemma replace_Forall (P : char -> Prop) (old new text : pystr) :
  Forall P new -> Forall P text -> Forall P (replace old new text).
Proof.
  intros Hnew Htext. destruct old as [|x old]; cbn [replace].
  - apply Forall_app; split; [assumption|].
    induction Htext; simpl; [constructor|].
    constructor; [assumption|]. apply Forall_app; now split.
  - now apply replace_go_Forall.
Qed.

(** Replacing a single character. *)
Lemma replace_char (a : char) (new text : pystr) :
  replace [a] new text =
  flat_map (fun c => if a =? c then new else [c]) text.
Proof.
  unfold replace. induction text as [|c t IH]; [reflexivity|].
  cbn [replace_go flat_map startswith List.length Nat.pred].
  rewrite andb_true_r. destruct (a =? c); now rewrite IH.
Qed.

(** ** The matcher *)


Lemma prev_after_app (prev : option char) (d e : pystr) :
  prev_after prev (d ++ e) = prev_after (prev_after prev d) e.
Proof. apply fold_left_app. Qed.

Lemma In_skipn {A : Type} (x : A) (n : nat) (l : list A) :
  In x (skipn n l) -> In x l.
Proof.
  revert l; induction n as [|n IH]; intros [|y l] H; simpl in *; auto.
Qed.

Lemma rep_from_inv (p : cls) (st' : mstate) :
  forall rest prev taken g,
    In st' (rep_from p prev taken rest g) ->
    exists d, ms_taken st' = rev d ++ taken /\ rest = d ++ ms_rest st' /\
              Forall (fun c => p c = true) d /\ ms_group st' = g /\
              ms_prev st' = prev_after prev d.
Proof.
  induction rest as [|c tl IH]; intros prev taken g H; cbn [rep_from] in H.
  - destruct H as [<- | []]. exists []. cbn. auto.
  - destruct H as [<- | H]; [exists []; cbn; auto|].
    destruct (p c) eqn:Hc; [|destruct H].
    destruct (IH _ _ _ H) as (d & Ht & Hr & Hd & Hg & Hp).
    exists (c :: d). cbn [rev app prev_after fold_left].
    rewrite <- app_assoc. cbn. repeat split; auto. now rewrite Hr.
Qed.

Lemma rep_from_skipn_length (p : cls) (st' : mstate) :
  forall n rest prev taken g,
    In st' (skipn n (rep_from p prev taken rest g)) ->
    (List.length taken + n <= List.length (ms_taken st'))%nat.
Proof.
  induction n as [|n IH]; intros rest prev taken g H.
  - cbn [skipn] in H. apply rep_from_inv in H as (d & -> & _).
    rewrite length_app. lia.
  - destruct rest as [|c tl]; cbn [rep_from skipn] in H.
    + now destruct n.
    + destruct (p c); [|now destruct n].
      apply IH in H. cbn [List.length] in H. lia.
Qed.

Lemma matches_split (r : regex) :
  forall st st', In st' (matches r st) ->
    exists d, ms_taken st' = rev d ++ ms_taken st /\
              ms_rest st = d ++ ms_rest st'.
Proof.
  induction r as [p | r1 IH1 r2 IH2 | greedy least p | r1 IH1 | r1 IH1
                 | positive p | positive p]; intros st st' H; cbn [matches] in H.
  - destruct (ms_rest st) as [|c tl] eqn:Hrest; [destruct H|].
    destruct (p c); [|destruct H]. destruct H as [<- | []].
    exists [c]. now cbn.
  - apply in_flat_map in H as (st1 & H1 & H2).
    destruct (IH1 _ _ H1) as (d1 & Ht1 & Hr1).
    destruct (IH2 _ _ H2) as (d2 & Ht2 & Hr2).
    exists (d1 ++ d2).
    rewrite Ht2, Ht1, Hr1, Hr2, rev_app_distr, !app_assoc. auto.
  - assert (H' : In st' (rep_from p (ms_prev st) (ms_taken st) (ms_rest st)
                           (ms_group st))).
    { destruct greedy; [apply in_rev in H|]; eapply In_skipn; eassumption. }
    apply rep_from_inv in H' as (d & Ht & Hr & _). now exists d.
  - apply in_app_or in H as [H | [<- | []]]; [now apply IH1|].
    now exists [].
  - apply in_map_iff in H as (st1 & <- & H1). cbn. now apply IH1.
  - destruct (Bool.eqb _ _); [|destruct H].
    destruct H as [<- | []]. now exists [].
  - destruct (Bool.eqb _ _); [|destruct H].
    destruct H as [<- | []]. now exists [].
Qed.

Lemma matches_length (r : regex) (st st' : mstate) :
  In st' (matches r st) ->
  (List.length (ms_taken st) <= List.length (ms_taken st'))%nat.
Proof.
  intros H. apply matches_split in H as (d & -> & _).
  rewrite length_app. lia.
Qed.

(** A pattern for which [takes_one] holds takes at least one character. *)
Lemma takes_one_sound (r : regex) :
  takes_one r = true ->
  forall st st', In st' (matches r st) ->
    (List.length (ms_taken st) < List.length (ms_taken st'))%nat.
Proof.
  induction r as [p | r1 IH1 r2 IH2 | greedy least p | r1 IH1 | r1 IH1
                 | positive p | positive p]; intros Hone st st' H;
    cbn [takes_one] in Hone; try discriminate.
  - cbn [matches] in H. destruct (ms_rest st) as [|c tl]; [destruct H|].
    destruct (p c); [|destruct H]. destruct H as [<- | []]. cbn. lia.
  - cbn [matches] in H. apply in_flat_map in H as (st1 & H1 & H2).
    pose proof (matches_length _ _ _ H1). pose proof (matches_length _ _ _ H2).
    apply orb_true_iff in Hone as [Hone | Hone].
    + specialize (IH1 Hone _ _ H1). lia.
    + specialize (IH2 Hone _ _ H2). lia.
  - cbn [matches] in H.
    assert (H' : In st' (skipn least
                           (rep_from p (ms_prev st) (ms_taken st) (ms_rest st)
                              (ms_group st)))).
    { destruct greedy; [now apply in_rev in H | assumption]. }
    apply rep_from_skipn_length in H'.
    destruct least; [discriminate | lia].
  - cbn [matches] in H. apply in_map_iff in H as (st1 & <- & H1). cbn.
    now apply IH1.
Qed.

(** Where the next character is outside [first r], [r] takes nothing. *)
Lemma matches_first (r : regex) (c : char) (t : pystr) :
  first r c = false ->
  forall st st', ms_rest st = c :: t -> In st' (matches r st) ->
    ms_rest st' = c :: t.
Proof.
  induction r as [p | r1 IH1 r2 IH2 | greedy least p | r1 IH1 | r1 IH1
                 | positive p | positive p]; intros Hf st st' Hrest H;
    cbn [first] in Hf; cbn [matches] in H.
  - rewrite Hrest, Hf in H. destruct H.
  - apply in_flat_map in H as (st1 & H1 & H2).
    apply orb_false_iff in Hf as [Hf1 Hf2].
    pose proof (IH1 Hf1 _ _ Hrest H1) as Hrest1.
    destruct (takes_one r1) eqn:Hone.
    + exfalso. pose proof (takes_one_sound _ Hone _ _ H1) as L.
      apply matches_split in H1 as (d & Ht & Hr).
      rewrite Hrest, Hrest1 in Hr.
      assert (d = []) as ->.
      { apply (f_equal (@List.length _)) in Hr. rewrite length_app in Hr.
        destruct d; [reflexivity | cbn in Hr; lia]. }
      rewrite Ht in L. cbn in L. lia.
    + cbn in Hf2. now apply (IH2 Hf2 st1).
  - rewrite Hrest in H. cbn [rep_from] in H. rewrite Hf in H.
    assert (H' : In st' [MState (ms_prev st) (ms_taken st) (c :: t)
                           (ms_group st)]).
    { destruct greedy; [apply in_rev in H|]; eapply In_skipn; eassumption. }
    now destruct H' as [<- | []].
  - apply in_app_or in H as [H | [<- | []]]; [now apply (IH1 Hf st) | easy].
  - apply in_map_iff in H as (st1 & <- & H1). cbn. now apply (IH1 Hf st).
  - destruct (Bool.eqb _ _); [|destruct H]. now destruct H as [<- | []].
  - destruct (Bool.eqb _ _); [|destruct H]. now destruct H as [<- | []].
Qed.

Lemma match_at_first (r : regex) (prev : option char) (c : char) (t : pystr) :
  takes_one r = true -> first r c = false -> match_at r prev (c :: t) = None.
Proof.
  intros Hone Hf. unfold match_at.
  destruct (matches r (MState prev [] (c :: t) None)) as [|st' l] eqn:E;
    [reflexivity | exfalso].
  assert (H : In st' (matches r (MState prev [] (c :: t) None)))
    by (rewrite E; now left).
  pose proof (takes_one_sound _ Hone _ _ H) as L.
  pose proof (matches_first r c t Hf (MState prev [] (c :: t) None) st'
                eq_refl H) as Hrest.
  apply matches_split in H as (d & Ht & Hr). cbn in Hr, L.
  rewrite Hrest in Hr.
  assert (d = []) as ->.
  { apply (f_equal (@List.length _)) in Hr. rewrite length_app in Hr.
    destruct d; [reflexivity | cbn in Hr; lia]. }
  rewrite Ht in L. cbn in L. lia.
Qed.

(** What a match object holds: a prefix of the subject that is not empty. *)
Lemma match_at_prefix (r : regex) (prev : option char) (text : pystr)
      (m : match_obj) :
  match_at r prev text = Some m -> exists rest, text = group0 m ++ rest.
Proof.
  unfold match_at.
  destruct (matches r (MState prev [] text None)) as [|st' l] eqn:E;
    [discriminate|]. intros [= <-].
  assert (H : In st' (matches r (MState prev [] text None)))
    by (rewrite E; now left).
  apply matches_split in H as (d & Ht & Hr). cbn in *.
  exists (ms_rest st'). now rewrite Ht, app_nil_r, rev_involutive.
Qed.

Lemma match_at_nonempty (r : regex) (prev : option char) (text : pystr)
      (m : match_obj) :
  takes_one r = true -> match_at r prev text = Some m -> group0 m <> [].
Proof.
  unfold match_at. intros Hone.
  destruct (matches r (MState prev [] text None)) as [|st' l] eqn:E;
    [discriminate|]. intros [= <-].
  assert (H : In st' (matches r (MState prev [] text None)))
    by (rewrite E; now left).
  apply (takes_one_sound _ Hone) in H. cbn in *.
  intros Hnil. apply (f_equal (@List.length _)) in Hnil.
  rewrite length_rev in Hnil. cbn in Hnil. lia.
Qed.

(** ** [re.sub] *)

Lemma finditer_go_skip (r : regex) (d rest : pystr) :
  forall prev,
    finditer_go r prev (List.length d) (d ++ rest) =
    finditer_go r (prev_after prev d) 0 rest.
Proof.
  induction d as [|x d IH]; intros prev; [reflexivity|].
  cbn [app List.length finditer_go]. apply IH.
Qed.

Lemma finditer_go_miss (r : regex) (prev : option char) (c : char)
      (t : pystr) :
  match_at r prev (c :: t) = None ->
  finditer_go r prev 0 (c :: t) = Keep c :: finditer_go r (Some c) 0 t.
Proof. intros H. cbn [finditer_go]. now rewrite H. Qed.

Lemma finditer_go_hit (r : regex) (prev : option char) (m : match_obj)
      (rest : pystr) :
  group0 m <> [] ->
  match_at r prev (group0 m ++ rest) = Some m ->
  finditer_go r prev 0 (group0 m ++ rest) =
  Hit m :: finditer_go r (prev_after prev (group0 m)) 0 rest.
Proof.
  intros Hne H. destruct (group0 m) as [|c d] eqn:E; [congruence|].
  cbn [app finditer_go]. cbn [app] in H. rewrite H, E.
  cbn [List.length]. now rewrite finditer_go_skip.
Qed.

Lemma finditer_go_absent (r : regex) (text : pystr) :
  takes_one r = true ->
  Forall (fun c => first r c = false) text ->
  forall prev, finditer_go r prev 0 text = map Keep text.
Proof.
  intros Hone H. induction H as [|c t Hc Ht IH]; intros prev; [reflexivity|].
  rewrite finditer_go_miss by now apply match_at_first.
  cbn [map]. now rewrite IH.
Qed.


Lemma sub_unfold (r : regex) (repl : match_obj -> pystr) (text : pystr) :
  sub r repl text = flat_map (emit repl) (finditer_go r None 0 text).
Proof. reflexivity. Qed.

Lemma flat_map_keep (repl : match_obj -> pystr) (text : pystr) :
  flat_map (emit repl) (map Keep text) = text.
Proof. induction text as [|c t IH]; cbn; [reflexivity | now rewrite IH]. Qed.

(** A pass whose pattern cannot start anywhere in the text changes nothing. *)
Lemma sub_absent (r : regex) (repl : match_obj -> pystr) (text : pystr) :
  takes_one r = true ->
  Forall (fun c => first r c = false) text ->
  sub r repl text = text.
Proof.
  intros Hone H. rewrite sub_unfold, finditer_go_absent by assumption.
  apply flat_map_keep.
Qed.

Lemma fill_keep {S : Type} (repl : match_obj -> S -> pystr * S)
      (text : pystr) (s : S) :
  fill repl (map Keep text) s = (text, s).
Proof.
  induction text as [|c t IH]; cbn; [reflexivity | now rewrite IH].
Qed.

Lemma sub_st_absent {S : Type} (r : regex)
      (repl : match_obj -> S -> pystr * S) (text : pystr) (s : S) :
  takes_one r = true ->
  Forall (fun c => first r c = false) text ->
  sub_st r repl text s = (text, s).
Proof.
  intros Hone H. unfold sub_st, finditer.
  rewrite finditer_go_absent by assumption. apply fill_keep.
Qed.

(** *** What a pass can put into its output

    A property [P] of the characters of the subject holds of every kept
    character and of the groups of every match. *)

Section Preserve.

Variable P : char -> Prop.


Lemma Forall_firstn (n : nat) (l : pystr) : Forall P l -> Forall P (firstn n l).
Proof.
  intros H. rewrite <- (firstn_skipn n l) in H.
  now apply Forall_app in H.
Qed.

Lemma matches_ok (r : regex) :
  forall st st', ok P st -> In st' (matches r st) -> ok P st'.
Proof.
  induction r as [p | r1 IH1 r2 IH2 | greedy least p | r1 IH1 | r1 IH1
                 | positive p | positive p];
    intros st st' (Ht & Hr & Hg) H; cbn [matches] in H.
  - destruct (ms_rest st) as [|c tl]; [destruct H|].
    destruct (p c); [|destruct H]. destruct H as [<- | []].
    inversion Hr; subst. repeat split; cbn; auto.
  - apply in_flat_map in H as (st1 & H1 & H2).
    apply (IH2 st1); [|assumption]. apply (IH1 st); [|assumption].
    now repeat split.
  - assert (H' : In st' (rep_from p (ms_prev st) (ms_taken st) (ms_rest st)
                           (ms_group st))).
    { destruct greedy; [apply in_rev in H|]; eapply In_skipn; eassumption. }
    apply rep_from_inv in H' as (d & Ht' & Hr' & _ & Hg' & _).
    rewrite Hr' in Hr. apply Forall_app in Hr as [Hd Hr].
    repeat split.
    + rewrite Ht'. apply Forall_app; split; [now apply Forall_rev|assumption].
    + assumption.
    + now rewrite Hg'.
  - apply in_app_or in H as [H | [<- | []]].
    + apply (IH1 st); [now repeat split | assumption].
    + now repeat split.
  - apply in_map_iff in H as (st1 & <- & H1).
    destruct (IH1 st st1) as (Ht1 & Hr1 & _); [now repeat split|assumption|].
    repeat split; cbn; auto.
    intros g [= <-]. apply Forall_rev. now apply Forall_firstn.
  - destruct (Bool.eqb _ _); [|destruct H]. destruct H as [<- | []].
    now repeat split.
  - destruct (Bool.eqb _ _); [|destruct H]. destruct H as [<- | []].
    now repeat split.
Qed.

Lemma match_at_ok (r : regex) (prev : option char) (text : pystr)
      (m : match_obj) :
  Forall P text -> match_at r prev text = Some m ->
  Forall P (group0 m) /\ Forall P (group1_text m).
Proof.
  intros Htext. unfold match_at.
  destruct (matches r (MState prev [] text None)) as [|st' l] eqn:E;
    [discriminate|]. intros [= <-].
  assert (H : ok P st').
  { apply (matches_ok r (MState prev [] text None)).
    - repeat split; cbn; auto. discriminate.
    - rewrite E. now left. }
  destruct H as (Ht & _ & Hg). unfold group1_text. cbn. split.
  - now apply Forall_rev.
  - destruct (ms_group st'); auto.
Qed.


Lemma finditer_go_ok (r : regex) (text : pystr) :
  Forall P text ->
  forall prev skip, Forall (piece_ok P) (finditer_go r prev skip text).
Proof.
  intros H. induction text as [|c t IH]; intros prev skip; [constructor|].
  cbn [finditer_go]. pose proof H as Hall. inversion H; subst.
  destruct skip; [|now apply IH].
  destruct (match_at r prev (c :: t)) as [m|] eqn:E.
  - destruct (List.length (group0 m));
      constructor; auto; cbn; eauto using match_at_ok.
  - constructor; auto.
Qed.

Lemma sub_Forall (r : regex) (repl : match_obj -> pystr) (text : pystr) :
  (forall m, Forall P (group0 m) -> Forall P (group1_text m) ->
             Forall P (repl m)) ->
  Forall P text -> Forall P (sub r repl text).
Proof.
  intros Hrepl Htext. rewrite sub_unfold.
  pose proof (finditer_go_ok r text Htext None 0) as H.
  induction H as [|p ps Hp Hps IH]; [constructor|].
  cbn [flat_map]. apply Forall_app; split; [|assumption].
  destruct p as [c|m]; cbn in *; [now constructor|].
  now apply Hrepl.
Qed.

Lemma fill_Forall {S : Type} (repl : match_obj -> S -> pystr * S)
      (ps : list piece) :
  (forall m s, Forall P (fst (repl m s))) ->
  Forall (piece_ok P) ps -> forall s, Forall P (fst (fill repl ps s)).
Proof.
  intros Hrepl H. induction H as [|p ps Hp Hps IH]; intros s; [constructor|].
  destruct p as [c|m]; cbn [fill].
  - specialize (IH s). destruct (fill repl ps s). now constructor.
  - specialize (Hrepl m s). destruct (repl m s) as [key s1].
    specialize (IH s1). destruct (fill repl ps s1).
    apply Forall_app; now split.
Qed.

Lemma sub_st_Forall {S : Type} (r : regex)
      (repl : match_obj -> S -> pystr * S) (text : pystr) (s : S) :
  (forall m s, Forall P (fst (repl m s))) ->
  Forall P text -> Forall P (fst (sub_st r repl text s)).
Proof.
  intros Hrepl Htext. apply fill_Forall; [assumption|].
  now apply finditer_go_ok.
Qed.

End Preserve.

(** ** Literals *)

Lemma takes_one_lit (f : char -> cls) (l : pystr) (c : char) :
  takes_one (lit_with f c l) = true.
Proof. destruct l; reflexivity. Qed.

Lemma first_lit (f : char -> cls) (l : pystr) (c x : char) :
  first (lit_with f c l) x = f c x.
Proof. destruct l; cbn; [reflexivity | now rewrite orb_false_r]. Qed.

(** ** Identifiers *)


Lemma hexdigit_char (d : N) : (d < 16)%N -> hex_char (hexdigit d).
Proof. unfold hex_char, hexdigit. destruct (N.ltb_spec d 10); lia. Qed.

Lemma hex_chars (u : N) : Forall hex_char (hex u).
Proof.
  unfold hex. apply Forall_forall. intros c Hc.
  apply in_map_iff in Hc as (i & <- & _).
  apply hexdigit_char. now apply N.mod_lt.
Qed.

Lemma hex_length (u : N) : List.length (hex u) = 32%nat.
Proof. unfold hex. now rewrite length_map. Qed.

(** ** Passes that rewrite one character at a time *)

Ltac literal :=
  repeat match goal with
         | |- context [ch ?a] =>
             let x := eval vm_compute in (ch a) in change (ch a) with x
         | |- context [str ?s] =>
             let x := eval vm_compute in (str s) in change (str s) with x
         end.

Lemma pointwise_from (f : option char -> char -> option char -> pystr)
      (pre text : pystr) :
  flat_map (fun i => match nth_error (pre ++ text) i with
                     | Some c => f (char_before (pre ++ text) i) c
                                   (nth_error (pre ++ text) (S i))
                     | None => []
                     end) (seq (List.length pre) (List.length text)) =
  rewrite_from f (char_before (pre ++ text) (List.length pre)) text.
Proof.
  revert pre. induction text as [|c t IH]; intros pre; [reflexivity|].
  cbn [List.length seq flat_map rewrite_from].
  rewrite nth_error_app2, Nat.sub_diag by lia.
  change (nth_error (c :: t) 0) with (Some c). cbv iota beta.
  replace (nth_error (pre ++ c :: t) (S (List.length pre))) with (hd_error t).
  2:{ rewrite nth_error_app2 by lia.
      replace (S (List.length pre) - List.length pre)%nat with 1%nat by lia.
      now destruct t. }
  specialize (IH (pre ++ [c])). rewrite <- app_assoc in IH. cbn [app] in IH.
  rewrite length_app in IH. cbn [List.length] in IH.
  rewrite Nat.add_1_r in IH. rewrite IH.
  cbn [char_before]. rewrite nth_error_app2, Nat.sub_diag by lia. reflexivity.
Qed.

(** A pass that looks at one character and at its two neighbours is a
    rewriting of the text position by position. *)
Lemma pointwise_rewrite (f : option char -> char -> option char -> pystr)
      (text : pystr) :
  pointwise (fun i c => f (char_before text i) c (nth_error text (S i))) text =
  rewrite_from f None text.
Proof. exact (pointwise_from f [] text). Qed.

Lemma sub_rewrite_from (r : regex) (repl : match_obj -> pystr)
      (f : option char -> char -> option char -> pystr) :
  (forall prev c t,
      match match_at r prev (c :: t) with
      | Some m => group0 m = [c] /\ repl m = f prev c (hd_error t)
      | None => f prev c (hd_error t) = [c]
      end) ->
  forall text prev,
    flat_map (emit repl) (finditer_go r prev 0 text) = rewrite_from f prev text.
Proof.
  intros Hstep. induction text as [|c t IH]; intros prev; [reflexivity|].
  cbn [finditer_go rewrite_from]. specialize (Hstep prev c t).
  destruct (match_at r prev (c :: t)) as [m|].
  - destruct Hstep as [Hg Hr]. rewrite Hg. cbn [List.length flat_map emit].
    now rewrite Hr, IH.
  - rewrite Hstep. cbn [flat_map emit app]. now rewrite IH.
Qed.

(** *** Single alphanumerics *)

Lemma match_at_single_alnum (prev : option char) (c : char) (t : pystr) :
  match_at single_alnum_pattern prev (c :: t) =
  if negb (holds alnum prev) && alnum c && negb (holds alnum (hd_error t))
  then Some (Match [c] (Some [c])) else None.
Proof.
  unfold match_at, single_alnum_pattern.
  cbn [matches flat_map ms_prev ms_rest ms_taken ms_group app].
  destruct (holds alnum prev); cbn [Bool.eqb negb andb flat_map app];
    [reflexivity|].
  cbn [matches flat_map ms_prev ms_rest ms_taken ms_group app map].
  destruct (alnum c); cbn [Bool.eqb negb andb flat_map app map]; [|reflexivity].
  cbn [matches flat_map ms_prev ms_rest ms_taken ms_group app map hd_error].
  now destruct (holds alnum (hd_error t)).
Qed.

Lemma single_alnum_rewrite (text : pystr) :
  convert_single_halfwidth_alnum_to_fullwidth text =
  rewrite_from (fun prev c next => [widen prev c next]) None text.
Proof.
  unfold convert_single_halfwidth_alnum_to_fullwidth. rewrite sub_unfold.
  apply sub_rewrite_from. intros prev c t.
  rewrite match_at_single_alnum. unfold widen. cbn [holds].
  destruct (holds alnum prev), (alnum c), (holds alnum (hd_error t)); cbn; auto.
Qed.

Lemma nth_error_0 {A : Type} (l : list A) : nth_error l 0 = hd_error l.
Proof. now destruct l. Qed.

Lemma nth_rewrite_from (h : option char -> char -> option char -> char) :
  forall text prev i,
    nth_error (rewrite_from (fun p c n => [h p c n]) prev text) i =
    option_map (fun c => h match i with
                           | O => prev
                           | S j => nth_error text j
                           end c (nth_error text (S i)))
               (nth_error text i).
Proof.
  induction text as [|c t IH]; intros prev i.
  - now destruct i.
  - cbn [rewrite_from app]. destruct i as [|i].
    + cbn. now destruct t.
    + cbn [nth_error]. rewrite IH. now destruct i.
Qed.

(** C7: [convert_single_halfwidth_alnum_to_fullwidth] keeps the length of
    the text; position [i] of its result holds the character of position
    [i] of the text moved up by 0xFEE0 when that character is an ASCII
    letter or digit with no ASCII letter or digit immediately before or
    after it, and the unchanged character otherwise, so that a run of two or
    more alphanumerics is untouched.  [process_text] leaves [A1] as it is
    and turns [A] into the full-width letter U+FF21. *)
Theorem C7_isolated_alnum_widening (rand : nat -> N) (text : pystr) (i : nat) :
  nth_error (convert_single_halfwidth_alnum_to_fullwidth text) i =
    option_map (fun c => if isolated text i then c + 0xFEE0 else c)
               (nth_error text i) /\
  process_text rand (str "A1") = str "A1" /\
  process_text rand (str "A") = [0xFF21].
Proof.
  split; [|split; vm_compute; reflexivity].
  rewrite single_alnum_rewrite, nth_rewrite_from.
  unfold isolated, char_before, widen.
  destruct (nth_error text i) as [c|]; reflexivity.
Qed.

(** *** Punctuation spacing *)

Lemma pointwise_ext (f g : nat -> char -> pystr) (text : pystr) :
  (forall i c, nth_error text i = Some c -> f i c = g i c) ->
  pointwise f text = pointwise g text.
Proof.
  intros H. unfold pointwise. rewrite !flat_map_concat_map. f_equal.
  apply map_ext. intros i.
  destruct (nth_error text i) as [c|] eqn:E; [now apply H | reflexivity].
Qed.

Lemma match_at_question_exclamation (prev : option char) (c : char)
      (t : pystr) :
  match_at question_exclamation_pattern prev (c :: t) =
  if holds cjk prev && question_exclamation c && holds cjk (hd_error t)
  then Some (Match [c] None) else None.
Proof.
  unfold match_at, question_exclamation_pattern.
  cbn [matches flat_map ms_prev ms_rest ms_taken ms_group app].
  destruct (holds cjk prev); cbn [Bool.eqb negb andb flat_map app];
    [|reflexivity].
  cbn [matches flat_map ms_prev ms_rest ms_taken ms_group app map].
  destruct (question_exclamation c); cbn [Bool.eqb negb andb flat_map app map];
    [|reflexivity].
  cbn [matches flat_map ms_prev ms_rest ms_taken ms_group app map hd_error].
  now destruct (holds cjk (hd_error t)).
Qed.

Lemma question_exclamation_rewrite (text : pystr) :
  add_fullwidth_space_after_question_exclamation text =
  rewrite_from spaced None text.
Proof.
  unfold add_fullwidth_space_after_question_exclamation. rewrite sub_unfold.
  apply sub_rewrite_from. intros prev c t.
  rewrite match_at_question_exclamation. unfold spaced. cbn [holds].
  destruct (holds cjk prev), (question_exclamation c),
    (holds cjk (hd_error t)); cbn; auto.
Qed.

(** C8: [add_fullwidth_space_after_question_exclamation] rewrites the text
    position by position: a full-width question or exclamation mark that
    has a character of U+3000..U+9FFF immediately before it and immediately
    after it is followed by an inserted U+3000, and every other character is
    kept as it is.  [process_text] turns U+89C1 U+FF1F U+89C1 into
    U+89C1 U+FF1F U+3000 U+89C1. *)
Theorem C8_punctuation_spacing (rand : nat -> N) (text : pystr) :
  add_fullwidth_space_after_question_exclamation text =
    pointwise (fun i c => if flanked text i then [c; 0x3000] else [c]) text /\
  process_text rand [0x89C1; 0xFF1F; 0x89C1] =
    [0x89C1; 0xFF1F; 0x3000; 0x89C1].
Proof.
  split; [|vm_compute; reflexivity].
  rewrite question_exclamation_rewrite, <- pointwise_rewrite.
  apply pointwise_ext. intros i c Hc. unfold flanked, spaced.
  now rewrite Hc.
Qed.

(** *** Escaped symbols *)

Lemma match_at_escaped (prev : option char) (x : char) (t : pystr) :
  match_at escaped_pattern prev (x :: t) =
  match t with
  | c :: _ =>
      if (x =? 92) && symbol c then Some (Match [x; c] (Some [c])) else None
  | [] => None
  end.
Proof.
  unfold match_at, escaped_pattern, only.
  cbn [matches flat_map ms_prev ms_rest ms_taken ms_group app].
  destruct (x =? 92); cbn [andb flat_map app]; [|now destruct t].
  cbn [matches flat_map ms_prev ms_rest ms_taken ms_group app map].
  destruct t as [|c t]; [reflexivity|].
  now destruct (symbol c).
Qed.

Lemma escaped_scan (n : nat) :
  forall text prev, (List.length text <= n)%nat ->
    flat_map (emit (fun m => map (fun symbol => map_get escape_map symbol symbol)
                               (group1_text m)))
             (finditer_go escaped_pattern prev 0 text) = unescape text.
Proof.
  induction n as [|n IH]; intros text prev Hlen.
  - destruct text; [reflexivity | cbn in Hlen; lia].
  - destruct text as [|x [|c rest]]; [reflexivity | |].
    + rewrite finditer_go_miss by now rewrite match_at_escaped.
      reflexivity.
    + cbn [unescape]. destruct ((x =? 92) && symbol c) eqn:E.
      * change (x :: c :: rest)
          with (group0 (Match [x; c] (Some [c])) ++ rest) at 1.
        rewrite (finditer_go_hit escaped_pattern prev
                   (Match [x; c] (Some [c])) rest);
          [|discriminate | cbn [group0 app]; now rewrite match_at_escaped, E].
        cbn [flat_map emit group1_text group1 map app]. f_equal.
        apply IH. cbn in Hlen; lia.
      * rewrite finditer_go_miss by now rewrite match_at_escaped, E.
        cbn [flat_map emit app]. f_equal. apply IH. cbn in *; lia.
Qed.

Lemma escaped_unescape (text : pystr) :
  convert_escaped_halfwidth_to_fullwidth text = unescape text.
Proof.
  unfold convert_escaped_halfwidth_to_fullwidth. rewrite sub_unfold.
  now apply (escaped_scan (List.length text)).
Qed.

(** C4, as the claim has it, fails: the lookup table of
    [convert_escaped_halfwidth_to_fullwidth] does not hold 37 symbols. *)
Lemma C4_table_is_not_37 : List.length escape_map <> 37%nat.
Proof. vm_compute. discriminate. Qed.

(** C4, amended: [convert_escaped_halfwidth_to_fullwidth] scans the text
    from the left and replaces each backslash followed by a symbol of
    [!-/], [:-@], [[-`] or [{-~] by the entry of a fixed table for that
    symbol; the table maps 28 distinct symbols, each to its code point plus
    0xFEE0 except the two angle brackets, which go to U+3008 and U+3009; the
    four symbols of the class without an entry, dollar, at, underscore and
    backquote, are written as themselves with the backslash dropped; and
    [process_text] turns a backslash and an opening parenthesis into
    U+FF08. *)
Theorem C4_escaped_symbols (rand : nat -> N) (text : pystr) :
  convert_escaped_halfwidth_to_fullwidth text = unescape text /\
  List.length escape_map = 28%nat /\
  NoDup (map fst escape_map) /\
  forallb (fun kv => symbol (fst kv) &&
                     ((snd kv =? fst kv + 0xFEE0) ||
                      eqb_str [fst kv; snd kv] [ch "<"; 0x3008] ||
                      eqb_str [fst kv; snd kv] [ch ">"; 0x3009]))
          escape_map = true /\
  filter (fun c => symbol c && negb (existsb (Z.eqb c) (map fst escape_map)))
         ascii_chars = str "$@_`" /\
  map (fun c => map_get escape_map c c) (str "$@_`") = str "$@_`" /\
  process_text rand [92; ch "("] = [0xFF08].
Proof.
  split; [apply escaped_unescape|].
  split; [reflexivity|].
  split.
  - vm_compute. repeat (constructor; [cbn; intuition discriminate|]).
    constructor.
  - repeat split; vm_compute; reflexivity.
Qed.

(** ** Literals and repetitions *)

Lemma matches_lit (f : char -> cls) :
  forall l c st,
    matches (lit_with f c l) st =
    if lit_prefix f (c :: l) (ms_rest st)
    then [advance st (List.length (c :: l))] else [].
Proof.
  induction l as [|d l IH]; intros c st; destruct st as [prev taken rest g];
    cbn [lit_with matches ms_rest ms_taken ms_group ms_prev].
  - destruct rest as [|x tl]; [reflexivity|]. cbn [lit_prefix].
    rewrite andb_true_r. destruct (f c x); reflexivity.
  - destruct rest as [|x tl]; [reflexivity|].
    change (lit_prefix f (c :: d :: l) (x :: tl))
      with (f c x && lit_prefix f (d :: l) tl).
    destruct (f c x); [|reflexivity].
    cbn [flat_map andb]. rewrite app_nil_r, IH.
    cbn [ms_rest]. destruct (lit_prefix f (d :: l) tl); [|reflexivity].
    unfold advance.
    cbn [ms_rest ms_taken ms_group ms_prev List.length firstn skipn rev
         prev_after fold_left].
    now rewrite <- app_assoc.
Qed.

Lemma rep_from_stop (p : cls) (prev : option char) (taken rest : pystr)
      (g : option pystr) :
  holds p (hd_error rest) = false ->
  rep_from p prev taken rest g = [MState prev taken rest g].
Proof.
  destruct rest as [|c tl]; cbn [hd_error holds rep_from]; [reflexivity|].
  now intros ->.
Qed.

Lemma hd_error_skipn {A : Type} (n : nat) :
  forall l : list A, hd_error (skipn n l) = nth_error l n.
Proof.
  induction n as [|n IH]; intros [|x l]; cbn; auto.
Qed.

(** *** The image tag needs white space after its name *)

Lemma img_pattern_unfold :
  img_pattern =
  lit_with ci 60 [105; 109; 103] ;; Rep true 1 space ;;
  Rep true 0 (none_of [62]) ;; Chr (ci 62).
Proof. reflexivity. Qed.

Lemma img_needs_space (prev : option char) (text : pystr) :
  holds space (nth_error text 4) = false ->
  match_at img_pattern prev text = None.
Proof.
  intros H. unfold match_at. rewrite img_pattern_unfold.
  cbn [matches]. rewrite matches_lit.
  destruct (lit_prefix _ _ _); [|reflexivity].
  cbn [flat_map]. rewrite app_nil_r. cbn [matches].
  rewrite rep_from_stop; [reflexivity|].
  unfold advance. cbn [ms_rest List.length]. now rewrite hd_error_skipn.
Qed.

(** C10: a match of the pattern of [convert_img_to_markdown] has a
    white-space character right after the three letters of the tag name, so
    a tag that has none there is not matched where it starts and is left to
    the later passes; [process_text] turns [<img>] into U+3008, [img],
    U+3009, U+FF1F. *)
Theorem C10_img_without_space (rand : nat -> N) (prev : option char)
        (text : pystr) :
  holds space (nth_error text 4) = false ->
  match_at img_pattern prev text = None /\
  convert_img_to_markdown (str "<img>") = str "<img>" /\
  process_text rand (str "<img>") = [0x3008] ++ str "img" ++ [0x3009; 0xFF1F].
Proof.
  intros H. split; [now apply img_needs_space|].
  split; vm_compute; reflexivity.
Qed.

Lemma C10_img_without_space_witness :
  holds space (nth_error (str "<img/>") 4) = false /\
  match_at img_pattern None (str "<img/>") = None.
Proof.
  split; [reflexivity|].
  apply (C10_img_without_space (fun _ => 0%N) None (str "<img/>")).
  reflexivity.
Defined.

(** C6: [process_text] is not idempotent on texts that hold an ASCII angle
    bracket: a closing bracket followed by U+89C1 becomes U+3009, U+FF1F,
    U+3000, U+89C1, and a second run inserts a second U+3000. *)
Theorem C6_not_idempotent (rand1 rand2 : nat -> N) :
  exists s,
    (In (ch "<") s \/ In (ch ">") s) /\
    process_text rand1 s = [0x3009; 0xFF1F; 0x3000; 0x89C1] /\
    process_text rand2 (process_text rand1 s) =
      [0x3009; 0xFF1F; 0x3000; 0x3000; 0x89C1] /\
    process_text rand2 (process_text rand1 s) <> process_text rand1 s.
Proof.
  exists [ch ">"; 0x89C1].
  split; [right; left; reflexivity|].
  split; [vm_compute; reflexivity|].
  split; [vm_compute; reflexivity|].
  vm_compute. discriminate.
Qed.

(** ** No ASCII angle bracket after [replace_tag_to_symbol] *)

Lemma plain_iff (c : char) : plain c <-> c <> 60 /\ c <> 62.
Proof. reflexivity. Qed.

Lemma replace_char_removes (a : char) (new text : pystr) :
  ~ In a new -> ~ In a (replace [a] new text).
Proof.
  intros Hnew. rewrite replace_char. intros H.
  apply in_flat_map in H as (c & _ & Hc).
  destruct (Z.eqb_spec a c); [now apply Hnew|].
  destruct Hc as [-> | []]. congruence.
Qed.

Lemma replace_tag_to_symbol_plain (text : pystr) :
  no_angle (replace_tag_to_symbol text).
Proof.
  unfold replace_tag_to_symbol, no_angle. literal.
  assert (F1 : Forall (fun c => c <> 60)
                 (replace [62] [0x3009; 0xFF1F] (replace [60] [0x3008] text))).
  { apply replace_Forall; [repeat constructor; lia|].
    apply Forall_forall. intros x Hx ->. revert Hx.
    apply replace_char_removes. cbn. lia. }
  assert (F2 : ~ In 62 (replace [62] [0x3009; 0xFF1F]
                          (replace [60] [0x3008] text))).
  { apply replace_char_removes. cbn. lia. }
  rewrite Forall_forall in *. intros c Hc. apply plain_iff. split.
  - now apply F1.
  - intros ->. now apply F2.
Qed.

Lemma plain_hex_char (c : char) : hex_char c -> plain c.
Proof. unfold hex_char. intros H. apply plain_iff. lia. Qed.

Lemma key_plain (prefix : pystr) (u : N) :
  Forall plain prefix -> Forall plain (prefix ++ hex u ++ str "__").
Proof.
  intros H. apply Forall_app; split; [assumption|].
  apply Forall_app; split.
  - eapply Forall_impl; [|apply hex_chars]. apply plain_hex_char.
  - repeat constructor; discriminate.
Qed.

Lemma markdown_key_plain (rand : nat -> N) (m : match_obj)
      (s : protect_state) :
  Forall plain (fst (markdown_link_replacer rand m s)).
Proof.
  apply key_plain. repeat constructor; discriminate.
Qed.

Lemma tag_pattern_absent (text : pystr) :
  no_angle text -> Forall (fun c => first tag_pattern c = false) text.
Proof.
  apply Forall_impl. intros c [H _]. cbn. unfold only.
  rewrite orb_false_r. now apply Z.eqb_neq.
Qed.

Lemma extract_plain (rand : nat -> N) (text : pystr) :
  no_angle text -> no_angle (fst (extract_protected_regions rand text)).
Proof.
  intros H. unfold extract_protected_regions.
  rewrite sub_st_absent by (auto using tag_pattern_absent).
  pose proof (sub_st_Forall plain image_pattern (markdown_link_replacer rand)
                text (ProtectState 0 []) (markdown_key_plain rand) H) as H1.
  destruct (sub_st image_pattern _ text _) as [t1 s1]. cbn [fst] in H1.
  pose proof (sub_st_Forall plain link_pattern (markdown_link_replacer rand)
                t1 s1 (markdown_key_plain rand) H1) as H2.
  now destruct (sub_st link_pattern _ t1 _) as [t2 s2].
Qed.

Lemma map_get_cases (m : list (char * char)) (s d : char) :
  map_get m s d = d \/ In (map_get m s d) (map snd m).
Proof.
  induction m as [|[k v] m IH]; cbn; [now left|].
  destruct (k =? s); [now right; left | tauto].
Qed.

Lemma escaped_plain (text : pystr) :
  no_angle text -> no_angle (convert_escaped_halfwidth_to_fullwidth text).
Proof.
  apply sub_Forall. intros m _ H.
  apply Forall_forall. intros c Hc.
  apply in_map_iff in Hc as (x & <- & Hx).
  rewrite Forall_forall in H.
  destruct (map_get_cases escape_map x x) as [-> | Hin]; [now apply H|].
  revert Hin. generalize (map_get escape_map x x). intros y Hy.
  apply plain_iff. cbn in Hy. lia.
Qed.

Lemma specific_symbols_plain (text : pystr) :
  no_angle text -> no_angle (convert_specific_symbols text).
Proof.
  intros H. unfold convert_specific_symbols, no_angle.
  repeat (apply replace_Forall; [repeat constructor; discriminate|]).
  exact H.
Qed.

Lemma rewrite_from_Forall (P : char -> Prop)
      (f : option char -> char -> option char -> pystr) :
  (forall p c n, P c -> Forall P (f p c n)) ->
  forall text prev, Forall P text -> Forall P (rewrite_from f prev text).
Proof.
  intros Hf. induction text as [|c t IH]; intros prev H; [constructor|].
  inversion H; subst. cbn [rewrite_from].
  apply Forall_app; split; [now apply Hf | now apply IH].
Qed.

Lemma alnum_range (c : char) :
  alnum c = true -> 48 <= c <= 57 \/ 65 <= c <= 90 \/ 97 <= c <= 122.
Proof.
  unfold alnum, union, range. literal. lia.
Qed.

Lemma single_alnum_plain (text : pystr) :
  no_angle text -> no_angle (convert_single_halfwidth_alnum_to_fullwidth text).
Proof.
  rewrite single_alnum_rewrite. apply rewrite_from_Forall.
  intros p c n Hc. constructor; [|constructor]. unfold widen. cbn [holds].
  destruct (alnum c) eqn:E; cbn [andb]; [|assumption].
  destruct (negb (holds alnum p) && negb (holds alnum n)); [|assumption].
  apply alnum_range in E. apply plain_iff. lia.
Qed.

Lemma question_exclamation_plain (text : pystr) :
  no_angle text ->
  no_angle (add_fullwidth_space_after_question_exclamation text).
Proof.
  apply sub_Forall. intros m H _. apply Forall_app; split; [assumption|].
  repeat constructor; discriminate.
Qed.

Lemma closing_quote_plain (text : pystr) :
  no_angle text -> no_angle (remove_fullwidth_space_before_closing_quote text).
Proof. apply sub_Forall. constructor. Qed.

Lemma void_pattern_absent (tag text : pystr) :
  no_angle text ->
  sub (void_pattern tag) (void_replacement tag) text = text.
Proof.
  intros H. apply sub_absent.
  - unfold void_pattern. cbn [takes_one]. now rewrite takes_one_lit.
  - revert H. apply Forall_impl. intros c Hc. apply plain_iff in Hc as [H _].
    unfold void_pattern. cbn [first]. rewrite first_lit, takes_one_lit.
    cbn [negb andb]. rewrite orb_false_r. unfold ci. literal.
    assert (H' : (c =? 60) = false) by (apply Z.eqb_neq; exact H).
    rewrite H'. reflexivity.
Qed.

Lemma void_tags_plain (text : pystr) :
  no_angle text -> convert_html_void_tags_to_xhtml text = text.
Proof.
  intros H. unfold convert_html_void_tags_to_xhtml.
  induction void_tags as [|tag tags IH]; [reflexivity|].
  cbn [fold_left]. now rewrite void_pattern_absent.
Qed.

(** C9: in [process_text] the buffer that [replace_tag_to_symbol] returns
    holds no ASCII angle bracket, and neither does the buffer returned by
    [extract_protected_regions] nor any buffer of the following passes up
    to [convert_html_void_tags_to_xhtml]; so the tag pattern of
    [extract_protected_regions] finds no match and records nothing, and
    [convert_html_void_tags_to_xhtml] returns its argument unchanged. *)
Theorem C9_no_angle_bracket_reaches_the_tag_passes
        (rand : nat -> N) (text : pystr) :
  let t3 :=
    replace_tag_to_symbol (replace_br_tag (convert_img_to_markdown text)) in
  let t4 := fst (extract_protected_regions rand t3) in
  let t5 := convert_escaped_halfwidth_to_fullwidth t4 in
  let t6 := convert_specific_symbols t5 in
  let t7 := convert_single_halfwidth_alnum_to_fullwidth t6 in
  let t8 := add_fullwidth_space_after_question_exclamation t7 in
  let t9 := remove_fullwidth_space_before_closing_quote t8 in
  let t10 := convert_html_void_tags_to_xhtml t9 in
  before_restore rand text = (t10, snd (extract_protected_regions rand t3)) /\
  no_angle t3 /\ no_angle t4 /\ no_angle t5 /\ no_angle t6 /\ no_angle t7 /\
  no_angle t8 /\ no_angle t9 /\ no_angle t10 /\
  finditer tag_pattern t3 = map Keep t3 /\
  sub_st tag_pattern (tag_replacer rand) t3 (ProtectState 0 []) =
    (t3, ProtectState 0 []) /\
  t10 = t9.
Proof.
  intros t3 t4 t5 t6 t7 t8 t9 t10.
  assert (H3 : no_angle t3) by apply replace_tag_to_symbol_plain.
  assert (H4 : no_angle t4) by now apply extract_plain.
  assert (H5 : no_angle t5) by now apply escaped_plain.
  assert (H6 : no_angle t6) by now apply specific_symbols_plain.
  assert (H7 : no_angle t7) by now apply single_alnum_plain.
  assert (H8 : no_angle t8) by now apply question_exclamation_plain.
  assert (H9 : no_angle t9) by now apply closing_quote_plain.
  assert (E : t10 = t9) by now apply void_tags_plain.
  split.
  - unfold before_restore. fold t3. subst t10 t9 t8 t7 t6 t5 t4.
    now destruct (extract_protected_regions rand t3).
  - repeat split; auto.
    + now rewrite E.
    + apply finditer_go_absent; [reflexivity | now apply tag_pattern_absent].
    + apply sub_st_absent; [reflexivity | now apply tag_pattern_absent].
Qed.

(** ** The match a backtracking matcher reports first *)

Lemma match_at_hd (r : regex) (prev : option char) (text : pystr) :
  match_at r prev text =
  option_map (fun st => Match (rev (ms_taken st)) (ms_group st))
             (hd_error (matches r (MState prev [] text None))).
Proof. unfold match_at. now destruct (matches r _). Qed.

Lemma hd_cat (r1 r2 : regex) (st s1 s2 : mstate) :
  hd_error (matches r1 st) = Some s1 ->
  hd_error (matches r2 s1) = Some s2 ->
  hd_error (matches (r1 ;; r2) st) = Some s2.
Proof.
  cbn [matches]. destruct (matches r1 st) as [|x l]; [discriminate|].
  intros [= ->]. cbn [flat_map].
  destruct (matches r2 s1) as [|y l']; [discriminate|].
  now intros [= ->].
Qed.

Lemma hd_chr (p : cls) (st : mstate) (c : char) (t : pystr) :
  ms_rest st = c :: t -> p c = true ->
  hd_error (matches (Chr p) st) =
  Some (MState (Some c) (c :: ms_taken st) t (ms_group st)).
Proof. intros Hr Hp. cbn [matches]. now rewrite Hr, Hp. Qed.

Lemma rep_from_run (p : cls) (rest : pystr) (g : option pystr) :
  holds p (hd_error rest) = false ->
  forall d prev taken,
    Forall (fun c => p c = true) d ->
    exists l,
      rep_from p prev taken (d ++ rest) g =
      l ++ [MState (prev_after prev d) (rev d ++ taken) rest g] /\
      List.length l = List.length d.
Proof.
  intros Hstop. induction d as [|c d IH]; intros prev taken Hd.
  - exists []. cbn [app]. rewrite rep_from_stop by assumption. now split.
  - inversion Hd as [|? ? Hc Hd']; subst.
    destruct (IH (Some c) (c :: taken) Hd') as (l & El & Ll).
    exists (MState prev taken ((c :: d) ++ rest) g :: l).
    cbn [app rep_from]. rewrite Hc, El.
    cbn [rev prev_after fold_left List.length]. rewrite <- app_assoc.
    split; [reflexivity | now rewrite Ll].
Qed.

(** A greedy repetition first takes the whole run. *)
Lemma hd_rep_greedy (p : cls) (least : nat) (st : mstate) (d rest : pystr) :
  ms_rest st = d ++ rest ->
  Forall (fun c => p c = true) d ->
  holds p (hd_error rest) = false ->
  (least <= List.length d)%nat ->
  hd_error (matches (Rep true least p) st) =
  Some (MState (prev_after (ms_prev st) d) (rev d ++ ms_taken st) rest
               (ms_group st)).
Proof.
  intros Hr Hd Hstop Hleast. cbn [matches]. rewrite Hr.
  destruct (rep_from_run p rest (ms_group st) Hstop d (ms_prev st)
              (ms_taken st) Hd) as (l & -> & Ll).
  rewrite skipn_app.
  replace (least - List.length l)%nat with 0%nat by lia.
  cbn [skipn]. now rewrite rev_app_distr.
Qed.

Lemma hd_grp (r : regex) (st s1 : mstate) :
  hd_error (matches r st) = Some s1 ->
  hd_error (matches (Grp r) st) =
  Some (MState (ms_prev s1) (ms_taken s1) (ms_rest s1)
          (Some (rev (firstn (List.length (ms_taken s1) -
                              List.length (ms_taken st)) (ms_taken s1))))).
Proof.
  cbn [matches]. destruct (matches r st) as [|x l]; [discriminate|].
  now intros [= ->].
Qed.

Lemma hd_lit (f : char -> cls) (l : pystr) (c : char) (st : mstate) :
  lit_prefix f (c :: l) (ms_rest st) = true ->
  hd_error (matches (lit_with f c l) st) =
  Some (advance st (List.length (c :: l))).
Proof. intros H. now rewrite matches_lit, H. Qed.

(** *** Markdown links *)

Lemma none_of_one (x c : char) : c <> x -> none_of [x] c = true.
Proof.
  intros H. unfold none_of. cbn. apply Z.eqb_neq in H. now rewrite H.
Qed.

Lemma Forall_none_of (x : char) (d : pystr) :
  Forall (is_not x) d -> Forall (fun c => none_of [x] c = true) d.
Proof. apply Forall_impl. intros c. apply none_of_one. Qed.

(** From a match reported by the pieces of a pattern to the match object. *)
Lemma match_at_from_hd (r : regex) (prev : option char) (text whole : pystr)
      (g : option pystr) :
  (exists st', hd_error (matches r (MState prev [] text None)) = Some st' /\
               rev (ms_taken st') = whole /\ ms_group st' = g) ->
  match_at r prev text = Some (Match whole g).
Proof.
  intros (st' & H & <- & <-). now rewrite match_at_hd, H.
Qed.

Ltac unrev :=
  repeat first [ rewrite rev_app_distr | rewrite rev_involutive
               | rewrite <- app_assoc | progress cbn [rev app] ].

Ltac take_chr :=
  eapply hd_cat;
  [ eapply hd_chr; [reflexivity | reflexivity]
  | cbn [ms_taken ms_group ms_prev ms_rest] ].

Ltac take_run run :=
  eapply hd_cat;
  [ eapply hd_rep_greedy with (d := run);
    [ reflexivity | | reflexivity | ]
  | cbn [ms_taken ms_group ms_prev ms_rest] ].

Lemma nonempty_length (d : pystr) : d <> [] -> (1 <= List.length d)%nat.
Proof. destruct d; [congruence | cbn; lia]. Qed.

(** [[body](url)] with nothing closing the bracket or the parenthesis
    early is one match of the link pattern. *)
Lemma match_at_link (prev : option char) (body url rest : pystr) :
  body <> [] -> url <> [] ->
  Forall (is_not 93) body -> Forall (is_not 41) url ->
  match_at link_pattern prev ([91] ++ body ++ [93; 40] ++ url ++ [41] ++ rest) =
  Some (Match ([91] ++ body ++ [93; 40] ++ url ++ [41]) None).
Proof.
  intros Hb Hu Fb Fu. apply match_at_from_hd.
  unfold link_pattern. literal. eexists. split; [|split].
  - take_chr.
    take_run body; [now apply Forall_none_of | now apply nonempty_length|].
    take_chr. take_chr.
    take_run url; [now apply Forall_none_of | now apply nonempty_length|].
    eapply hd_chr; reflexivity.
  - cbn [ms_taken]. unrev. reflexivity.
  - reflexivity.
Qed.

(** ** Placeholders pass through the typographic passes *)

Lemma markdown_key_chars (u : N) : Forall key_char (markdown_key u).
Proof.
  unfold markdown_key. apply Forall_app; split.
  - literal. unfold key_char, hex_char.
    repeat (apply Forall_cons; [lia|]). apply Forall_nil.
  - apply Forall_app; split.
    + eapply Forall_impl; [|apply hex_chars]. intros c H. now left.
    + literal. unfold key_char, hex_char.
      repeat (apply Forall_cons; [lia|]). apply Forall_nil.
Qed.

Lemma markdown_key_length (u : N) : List.length (markdown_key u) = 50%nat.
Proof.
  unfold markdown_key. rewrite !length_app, hex_length. reflexivity.
Qed.

Lemma markdown_key_cons (u : N) :
  markdown_key u = 95 :: tl (markdown_key u).
Proof. reflexivity. Qed.

Lemma key_chars_not_in (x : char) (k : pystr) :
  ~ key_char x -> Forall key_char k -> ~ In x k.
Proof.
  intros Hx Hk Hin. rewrite Forall_forall in Hk. now apply Hx, Hk.
Qed.

Lemma key_chars_is_not (x : char) (k : pystr) :
  ~ key_char x -> Forall key_char k -> Forall (is_not x) k.
Proof.
  intros Hx. apply Forall_impl. intros c Hc ->. now apply Hx.
Qed.

Lemma key_chars_absent (r : regex) (k : pystr) :
  (forall c, key_char c -> first r c = false) ->
  Forall key_char k -> Forall (fun c => first r c = false) k.
Proof. intros H. apply Forall_impl. exact H. Qed.

Ltac not_key_char := unfold key_char, hex_char; lia.

Lemma hex_alnum (c : char) : hex_char c -> alnum c = true.
Proof. unfold hex_char, alnum, union, range. literal. lia. Qed.

(** A run of letters and digits that is longer than one character, or
    follows a letter or digit, is written as it is. *)
Lemma widen_run (rest : pystr) :
  forall run prev,
    Forall (fun c => alnum c = true) run ->
    holds alnum prev = true \/ (2 <= List.length run)%nat ->
    rewrite_from (fun p c n => [widen p c n]) prev (run ++ rest) =
    run ++ rewrite_from (fun p c n => [widen p c n]) (prev_after prev run) rest.
Proof.
  induction run as [|c run IH]; intros prev Hrun Hctx; [reflexivity|].
  inversion Hrun as [|? ? Hc Hrun']; subst.
  cbn [app rewrite_from prev_after fold_left].
  rewrite IH; [|assumption | left; exact Hc].
  f_equal. unfold widen. destruct Hctx as [-> | Hlen].
  - now rewrite andb_false_r.
  - destruct run as [|c2 run]; [cbn in Hlen; lia|].
    inversion Hrun'; subst. cbn [app hd_error holds].
    replace (alnum c2) with true by auto. now rewrite andb_false_r.
Qed.

Lemma widen_other (c : char) (t : pystr) (prev : option char) :
  alnum c = false ->
  rewrite_from (fun p c n => [widen p c n]) prev (c :: t) =
  c :: rewrite_from (fun p c n => [widen p c n]) (Some c) t.
Proof.
  intros H. cbn [rewrite_from app]. unfold widen at 1. cbn [holds].
  now rewrite H.
Qed.

Lemma widen_key_text (h : pystr) :
  Forall (fun c => alnum c = true) h -> (2 <= List.length h)%nat ->
  rewrite_from (fun p c n => [widen p c n]) None
    ([95; 95] ++ [77; 65; 82; 75; 68; 79; 87; 78] ++ [95] ++
     [76; 73; 78; 75] ++ [95] ++ h ++ [95; 95]) =
  [95; 95] ++ [77; 65; 82; 75; 68; 79; 87; 78] ++ [95] ++
  [76; 73; 78; 75] ++ [95] ++ h ++ [95; 95].
Proof.
  intros Hh Hlen.
  change ([95; 95] ++ ?x) with (95 :: 95 :: x).
  rewrite !widen_other by reflexivity. do 2 f_equal.
  rewrite widen_run;
    [| repeat (apply Forall_cons; [reflexivity|]); apply Forall_nil
     | right; cbn; lia].
  f_equal. change ([95] ++ ?x) with (95 :: x) at 1 3.
  rewrite widen_other by reflexivity. f_equal.
  rewrite widen_run;
    [| repeat (apply Forall_cons; [reflexivity|]); apply Forall_nil
     | right; cbn; lia].
  f_equal. change ([95] ++ ?x) with (95 :: x).
  rewrite widen_other by reflexivity. f_equal.
  rewrite widen_run; [| assumption | now right].
  f_equal.
Qed.

Lemma widen_key (u : N) :
  convert_single_halfwidth_alnum_to_fullwidth (markdown_key u) =
  markdown_key u.
Proof.
  rewrite single_alnum_rewrite. unfold markdown_key.
  change (str "__MARKDOWN_LINK_")
    with ([95; 95] ++ [77; 65; 82; 75; 68; 79; 87; 78] ++ [95] ++
          [76; 73; 78; 75] ++ [95]).
  change (str "__") with [95; 95].
  rewrite <- !app_assoc. apply widen_key_text.
  - eapply Forall_impl; [|apply hex_chars]. apply hex_alnum.
  - rewrite hex_length. lia.
Qed.

Lemma markdown_key_plain_text (u : N) : no_angle (markdown_key u).
Proof. apply key_plain. repeat constructor; discriminate. Qed.

(** Stages 5 to 10 leave a placeholder that stands alone as it is. *)
Lemma typography_key (u : N) : typography (markdown_key u) = markdown_key u.
Proof.
  pose proof (markdown_key_chars u) as K.
  unfold typography.
  assert (E5 : convert_escaped_halfwidth_to_fullwidth (markdown_key u) =
               markdown_key u).
  { apply sub_absent; [reflexivity|].
    apply key_chars_absent; [|assumption].
    intros c Hc. cbn. unfold only. rewrite orb_false_r.
    apply Z.eqb_neq. revert Hc. not_key_char. }
  rewrite E5.
  assert (E6 : convert_specific_symbols (markdown_key u) = markdown_key u).
  { assert (R : forall x old new,
               ~ key_char x ->
               replace (x :: old) new (markdown_key u) = markdown_key u).
    { intros x old new Hx. apply replace_absent.
      now apply key_chars_not_in. }
    unfold convert_specific_symbols. literal.
    rewrite !R; [reflexivity | | | | | |]; not_key_char. }
  rewrite E6, widen_key.
  assert (E8 : add_fullwidth_space_after_question_exclamation (markdown_key u)
               = markdown_key u).
  { apply sub_absent; [reflexivity|].
    apply key_chars_absent; [|assumption].
    intros c Hc. cbn. unfold question_exclamation, union, only.
    rewrite orb_false_r.
    apply orb_false_iff; split; apply Z.eqb_neq; revert Hc; not_key_char. }
  rewrite E8.
  assert (E9 : remove_fullwidth_space_before_closing_quote (markdown_key u)
               = markdown_key u).
  { apply sub_absent; [reflexivity|].
    apply key_chars_absent; [|assumption].
    intros c Hc. cbn. unfold only. rewrite orb_false_r.
    apply Z.eqb_neq. revert Hc. not_key_char. }
  rewrite E9. apply void_tags_plain, markdown_key_plain_text.
Qed.

(** ** A linked image *)

Lemma replace_self (old new : pystr) : old <> [] -> replace old new old = new.
Proof. destruct old; [congruence | intros _; apply replace_whole]. Qed.

Lemma replace_distinct (old new t : pystr) :
  old <> [] -> List.length t = List.length old -> t <> old ->
  replace old new t = t.
Proof. destruct old; [congruence | intros _; apply replace_other]. Qed.

Lemma markdown_key_nonempty (u : N) : markdown_key u <> [].
Proof. rewrite markdown_key_cons. discriminate. Qed.

Lemma linked_image_front :
  replace_tag_to_symbol (replace_br_tag (convert_img_to_markdown linked_image))
  = linked_image.
Proof. vm_compute. reflexivity. Qed.

Lemma linked_image_tags :
  finditer tag_pattern linked_image = map Keep linked_image.
Proof. vm_compute. reflexivity. Qed.

Lemma linked_image_images :
  finditer image_pattern linked_image =
  [Keep 91; Hit (Match (str "![](a.png)") None); Keep 93; Keep 40; Keep 98;
   Keep 41].
Proof. vm_compute. reflexivity. Qed.

Lemma link_around_key_links (u : N) :
  finditer link_pattern (link_around_key u) =
  [Hit (Match (link_around_key u) None)].
Proof.
  unfold finditer.
  pose (m := Match (link_around_key u) None).
  replace (link_around_key u) with (group0 m ++ []) at 1
    by apply app_nil_r.
  rewrite finditer_go_hit; [reflexivity | |].
  - unfold m, link_around_key. cbn [group0]. literal. discriminate.
  - rewrite app_nil_r. unfold m. cbn [group0]. unfold link_around_key. literal.
    change [93; 40; 98; 41] with ([93; 40] ++ [98] ++ [41]).
    rewrite <- (app_nil_r ([91] ++ _)), <- !app_assoc.
    rewrite match_at_link; [do 2 f_equal; now rewrite <- !app_assoc | .. ].
    + apply markdown_key_nonempty.
    + discriminate.
    + apply key_chars_is_not; [not_key_char | apply markdown_key_chars].
    + repeat constructor. discriminate.
Qed.

(** What [restore_protected_regions] receives for a linked image: the
    buffer is the placeholder of the link alone, and the text recorded for
    it holds the placeholder of the image. *)
Lemma before_restore_linked_image (rand : nat -> N) :
  before_restore rand linked_image =
  (markdown_key (uuid4 (rand 1%nat)),
   dict_set [(markdown_key (uuid4 (rand 0%nat)), str "![](a.png)")]
            (markdown_key (uuid4 (rand 1%nat)))
            (link_around_key (uuid4 (rand 0%nat)))).
Proof.
  unfold before_restore. rewrite linked_image_front.
  unfold extract_protected_regions, sub_st.
  rewrite linked_image_tags, fill_keep, linked_image_images.
  cbn [fill markdown_link_replacer draws protected dict_set app].
  change (91 :: (str "__MARKDOWN_LINK_" ++ hex (uuid4 (rand 0%nat)) ++ str "__")
             ++ [93; 40; 98; 41])
    with (link_around_key (uuid4 (rand 0%nat))).
  rewrite link_around_key_links.
  cbn [fill markdown_link_replacer draws protected group0].
  rewrite app_nil_r.
  change (str "__MARKDOWN_LINK_" ++ hex (uuid4 (rand 1%nat)) ++ str "__")
    with (markdown_key (uuid4 (rand 1%nat))).
  now rewrite typography_key.
Qed.

(** The final text for a linked image holds the placeholder of the image. *)
Lemma process_text_linked_image (rand : nat -> N) :
  process_text rand linked_image = link_around_key (uuid4 (rand 0%nat)).
Proof.
  unfold process_text. rewrite before_restore_linked_image.
  unfold restore_protected_regions. cbn [dict_set].
  destruct (eqb_str (markdown_key (uuid4 (rand 0%nat)))
                    (markdown_key (uuid4 (rand 1%nat)))) eqn:E.
  - apply eqb_str_eq in E. cbn [fold_left fst snd]. rewrite <- E.
    apply replace_self, markdown_key_nonempty.
  - cbn [fold_left fst snd].
    rewrite (replace_distinct (markdown_key (uuid4 (rand 0%nat)))).
    + apply replace_self, markdown_key_nonempty.
    + apply markdown_key_nonempty.
    + now rewrite !markdown_key_length.
    + intros H. rewrite H, eqb_str_refl in E. discriminate.
Qed.

Lemma occurrences_short (p t : pystr) :
  (List.length t < List.length p)%nat -> occurrences p t = 0%nat.
Proof.
  induction t as [|c t IH]; intros H; cbn [occurrences].
  - now rewrite startswith_short.
  - rewrite startswith_short by assumption. apply IH. cbn in H. lia.
Qed.

Lemma occurrences_same_length (p t : pystr) :
  p <> [] -> List.length t = List.length p ->
  occurrences p t = if eqb_str p t then 1%nat else 0%nat.
Proof.
  intros Hp Hlen. destruct t as [|c t].
  - destruct p; [congruence | discriminate].
  - cbn [occurrences]. rewrite startswith_same_length by now symmetry.
    rewrite occurrences_short by (cbn in Hlen; lia). apply Nat.add_0_r.
Qed.

Lemma link_around_key_inj (u v : N) :
  link_around_key u = link_around_key v <-> hex u = hex v.
Proof.
  unfold link_around_key, markdown_key. split; [|now intros ->].
  intros H. apply app_inv_head in H. apply app_inv_tail in H.
  apply app_inv_head in H. now apply app_inv_tail in H.
Qed.

(** C1, at the linked image [[![](a.png)](b)]: the protect stage matches
    the image span [![](a.png)] and replaces it by a placeholder, yet the
    text [process_text] returns is the link around that placeholder, and the
    image span does not occur in it. *)
Theorem C1_linked_image_span_is_lost (rand : nat -> N) :
  In (Hit (Match (str "![](a.png)") None))
     (finditer image_pattern
        (replace_tag_to_symbol
           (replace_br_tag (convert_img_to_markdown linked_image)))) /\
  process_text rand linked_image = link_around_key (uuid4 (rand 0%nat)) /\
  contains (str "![](a.png)") (process_text rand linked_image) = false.
Proof.
  split; [|split].
  - rewrite linked_image_front, linked_image_images. right. now left.
  - apply process_text_linked_image.
  - rewrite process_text_linked_image. unfold link_around_key. literal.
    apply contains_absent. intros H.
    apply in_app_or in H as [H | H]; [cbn in H; lia|].
    apply in_app_or in H as [H | H]; [|cbn in H; lia].
    revert H. apply key_chars_not_in; [not_key_char | apply markdown_key_chars].
Qed.

(** C2, at the linked image: the text [process_text] returns holds the
    identifier drawn for the image, so that two runs return the same text
    exactly when their first draws print the same; the runs that draw 0 and
    1 return different texts. *)
Theorem C2_linked_image_output_shows_the_draw (rand1 rand2 : nat -> N) :
  process_text rand1 linked_image = link_around_key (uuid4 (rand1 0%nat)) /\
  (process_text rand1 linked_image = process_text rand2 linked_image <->
   hex (uuid4 (rand1 0%nat)) = hex (uuid4 (rand2 0%nat))) /\
  process_text (fun _ => 0%N) linked_image <>
  process_text (fun _ => 1%N) linked_image.
Proof.
  split; [apply process_text_linked_image|]. split.
  - rewrite !process_text_linked_image. apply link_around_key_inj.
  - rewrite !process_text_linked_image, link_around_key_inj.
    vm_compute. discriminate.
Qed.

(** C3, at the linked image: the placeholder of the image is a key of the
    protection map, the buffer handed to [restore_protected_regions] is the
    placeholder of the link alone, and the placeholder of the image occurs
    in that buffer only if the two draws collide; with the draws 0 and 1 it
    occurs nowhere in the buffer. *)
Theorem C3_linked_image_key_not_in_buffer (rand : nat -> N) :
  In (markdown_key (uuid4 (rand 0%nat)))
     (keys (snd (before_restore rand linked_image))) /\
  fst (before_restore rand linked_image) = markdown_key (uuid4 (rand 1%nat)) /\
  occurrences (markdown_key (uuid4 (rand 0%nat)))
              (fst (before_restore rand linked_image)) =
    (if eqb_str (markdown_key (uuid4 (rand 0%nat)))
                (markdown_key (uuid4 (rand 1%nat)))
     then 1%nat else 0%nat) /\
  occurrences (markdown_key (uuid4 0))
              (fst (before_restore N.of_nat linked_image)) = 0%nat.
Proof.
  rewrite !before_restore_linked_image. cbn [fst snd].
  split; [|split; [reflexivity|split]].
  - cbn [dict_set]. destruct (eqb_str _ _); now left.
  - apply occurrences_same_length;
      [apply markdown_key_nonempty | now rewrite !markdown_key_length].
  - rewrite occurrences_same_length;
      [| apply markdown_key_nonempty | now rewrite !markdown_key_length].
    vm_compute. reflexivity.
Qed.

(** ** Patterns without a look-behind *)

Lemma map_flat_map {A B C : Type} (f : B -> C) (g : A -> list B)
      (l : list A) :
  map f (flat_map g l) = flat_map (fun x => map f (g x)) l.
Proof.
  induction l as [|x l IH]; cbn; [reflexivity|].
  now rewrite map_app, IH.
Qed.

Lemma flat_map_map {A B C : Type} (f : A -> B) (g : B -> list C)
      (l : list A) :
  flat_map g (map f l) = flat_map (fun x => g (f x)) l.
Proof. induction l as [|x l IH]; cbn; [reflexivity | now rewrite IH]. Qed.

Lemma rep_from_forget (p : cls) (prev : option char) (taken rest : pystr)
      (g : option pystr) :
  map forget (rep_from p prev taken rest g) =
  map forget (rep_from p None taken rest g).
Proof. destruct rest; reflexivity. Qed.

Lemma matches_forget (r : regex) :
  behind_free r = true ->
  forall st, map forget (matches r st) = map forget (matches r (forget st)).
Proof.
  induction r as [p | r1 IH1 r2 IH2 | greedy least p | r1 IH1 | r1 IH1
                 | positive p | positive p]; intros Hf st;
    cbn [behind_free] in Hf; try discriminate; cbn [matches].
  - reflexivity.
  - apply andb_true_iff in Hf as [Hf1 Hf2].
    rewrite !map_flat_map.
    rewrite (flat_map_ext _ (fun x => map forget (matches r2 (forget x))))
      by (intros x; apply (IH2 Hf2)).
    rewrite <- (flat_map_map forget (fun s => map forget (matches r2 s))).
    rewrite (IH1 Hf1 st), flat_map_map.
    apply flat_map_ext. intros x. symmetry. apply (IH2 Hf2).
  - cbn [forget ms_prev ms_taken ms_rest ms_group].
    destruct greedy; rewrite ?map_rev, <- !skipn_map;
      now rewrite rep_from_forget.
  - rewrite !map_app. now rewrite (IH1 Hf st).
  - rewrite !map_map.
    change (fun x => forget (MState (ms_prev x) (ms_taken x) (ms_rest x)
                               (Some (rev (firstn (List.length (ms_taken x) -
                                                   List.length (ms_taken st))
                                                  (ms_taken x))))))
      with (fun x => (fun y => MState None (ms_taken y) (ms_rest y)
                        (Some (rev (firstn (List.length (ms_taken y) -
                                            List.length (ms_taken st))
                                           (ms_taken y))))) (forget x)).
    rewrite <- (map_map forget), (IH1 Hf st), map_map. reflexivity.
  - cbn [forget ms_rest]. now destruct (Bool.eqb _ _).
Qed.

Lemma match_at_forget (r : regex) (prev prev' : option char) (text : pystr) :
  behind_free r = true -> match_at r prev text = match_at r prev' text.
Proof.
  intros Hf.
  assert (H : forall p, match_at r p text =
                        option_map (fun st => Match (rev (ms_taken st))
                                                (ms_group st))
                          (hd_error (map forget
                                       (matches r (MState None [] text None))))).
  { intros p. rewrite match_at_hd.
    change (MState None [] text None) with (forget (MState p [] text None)).
    rewrite <- (matches_forget r Hf (MState p [] text None)).
    now destruct (matches r _). }
  now rewrite (H prev), (H prev').
Qed.

Lemma finditer_go_forget (r : regex) (text : pystr) :
  behind_free r = true ->
  forall prev prev' skip,
    finditer_go r prev skip text = finditer_go r prev' skip text.
Proof.
  intros Hf. induction text as [|c t IH]; intros prev prev' skip;
    [reflexivity|].
  cbn [finditer_go]. destruct skip; [|apply IH].
  now rewrite (match_at_forget r prev prev').
Qed.

Lemma finditer_go_app_absent (r : regex) (rest : pystr) :
  takes_one r = true ->
  forall pre prev,
    Forall (fun c => first r c = false) pre ->
    finditer_go r prev 0 (pre ++ rest) =
    map Keep pre ++ finditer_go r (prev_after prev pre) 0 rest.
Proof.
  intros Hone. induction pre as [|c pre IH]; intros prev H; [reflexivity|].
  inversion H; subst. cbn [app].
  rewrite finditer_go_miss by now apply match_at_first.
  cbn [map app prev_after fold_left]. now rewrite IH.
Qed.

(** A text splits into its longest run of a class and the rest. *)
Lemma run_split (p : cls) (l : pystr) :
  exists d r, l = d ++ r /\ Forall (fun c => p c = true) d /\
              holds p (hd_error r) = false.
Proof.
  induction l as [|c l (d & r & -> & Hd & Hr)].
  - now exists [], [].
  - destruct (p c) eqn:E.
    + exists (c :: d), r. repeat split; auto.
    + exists [], (c :: d ++ r). repeat split; auto.
Qed.

(** ** Image tags *)

Lemma space_not_gt (c : char) : space c = true -> c <> 62.
Proof. intros H ->. discriminate. Qed.

Lemma hd_app_stop (p : cls) (l : pystr) (x : char) (t : pystr) :
  holds p (hd_error l) = false -> p x = false ->
  holds p (hd_error (l ++ x :: t)) = false.
Proof. destruct l; cbn; auto. Qed.

(** A tag [<img], a white-space character, anything without [>], and [>]
    is one match of the image pattern. *)
Lemma match_at_img (prev : option char) (i m g w : char) (body post : pystr) :
  lit_prefix ci (str "img") [i; m; g] = true ->
  space w = true ->
  Forall (is_not 62) body ->
  match_at img_pattern prev (([60; i; m; g; w] ++ body ++ [62]) ++ post) =
  Some (Match ([60; i; m; g; w] ++ body ++ [62]) None).
Proof.
  intros Hname Hw Hbody. apply match_at_from_hd.
  destruct (run_split space body) as (d & r & -> & Hd & Hr).
  apply Forall_app in Hbody as [_ Hr'].
  rewrite img_pattern_unfold. eexists. split; [|split].
  - eapply hd_cat; [apply hd_lit|].
    { cbn [ms_rest app]. revert Hname. literal. cbn [lit_prefix].
      change (ci 60 60) with true. now cbn [andb]. }
    unfold advance.
    cbn [List.length ms_rest ms_taken ms_group ms_prev firstn skipn app].
    eapply hd_cat.
    { apply hd_rep_greedy with (d := w :: d) (rest := (r ++ [62]) ++ post).
      - cbn [ms_rest app]. now rewrite <- !app_assoc.
      - now constructor.
      - rewrite <- app_assoc. now apply hd_app_stop.
      - cbn. lia. }
    cbn [ms_taken ms_group ms_prev ms_rest].
    rewrite <- app_assoc.
    take_run r; [now apply Forall_none_of | lia |].
    eapply hd_chr; reflexivity.
  - cbn [ms_taken]. unrev. reflexivity.
  - reflexivity.
Qed.

Lemma img_pattern_first (c : char) : c <> 60 -> first img_pattern c = false.
Proof.
  intros H. rewrite img_pattern_unfold. cbn [first].
  rewrite first_lit, takes_one_lit. cbn [negb andb]. rewrite orb_false_r.
  unfold ci. apply Z.eqb_neq in H. now rewrite H.
Qed.

(** An image tag after a text without [<] is the first match of the pass,
    and the pass goes on behind it. *)
Lemma convert_img_at_tag (pre post : pystr) (i m g w : char) (body : pystr) :
  Forall (is_not 60) pre ->
  lit_prefix ci (str "img") [i; m; g] = true ->
  space w = true ->
  Forall (is_not 62) body ->
  convert_img_to_markdown (pre ++ ([60; i; m; g; w] ++ body ++ [62]) ++ post) =
  pre ++ img_replacer (Match ([60; i; m; g; w] ++ body ++ [62]) None) ++
  convert_img_to_markdown post.
Proof.
  intros Hpre Hname Hw Hbody. unfold convert_img_to_markdown.
  rewrite !sub_unfold.
  rewrite finditer_go_app_absent;
    [| reflexivity
     | revert Hpre; apply Forall_impl; intros c; apply img_pattern_first].
  rewrite flat_map_app, flat_map_keep. f_equal.
  pose (tag := Match ([60; i; m; g; w] ++ body ++ [62]) None).
  change ([60; i; m; g; w] ++ body ++ [62]) with (group0 tag).
  rewrite finditer_go_hit;
    [| discriminate | now apply match_at_img].
  cbn [flat_map emit]. f_equal. f_equal.
  now apply finditer_go_forget.
Qed.

(** * Further properties of the passes *)

(** ** [replace_tag_to_symbol] *)

Lemma flat_map_flat_map {A B C : Type} (f : A -> list B) (g : B -> list C)
      (l : list A) :
  flat_map g (flat_map f l) = flat_map (fun x => flat_map g (f x)) l.
Proof.
  induction l as [|x l IH]; cbn; [reflexivity|].
  now rewrite flat_map_app, IH.
Qed.

(** [replace_tag_to_symbol] rewrites the text character by character: [<]
    becomes U+3008, [>] becomes U+3009 followed by U+FF1F, and every other
    character is kept; the two replacements in a row do not interfere. *)
Theorem replace_tag_to_symbol_pointwise (text : pystr) :
  replace_tag_to_symbol text = flat_map angle_symbol text.
Proof.
  unfold replace_tag_to_symbol. literal. rewrite !replace_char.
  rewrite flat_map_flat_map. apply flat_map_ext. intros c.
  unfold angle_symbol. literal. rewrite (Z.eqb_sym c 60), (Z.eqb_sym c 62).
  destruct (Z.eqb_spec 60 c) as [<- | H60]; [reflexivity|].
  cbn [flat_map app]. now destruct (62 =? c).
Qed.

(** ** [remove_fullwidth_space_before_closing_quote] *)

Lemma match_at_space_before_quote (prev : option char) (c : char)
      (t : pystr) :
  match_at space_before_quote_pattern prev (c :: t) =
  if (c =? 0x3000) && holds (only 0x300D) (hd_error t)
  then Some (Match [c] None) else None.
Proof.
  unfold match_at, space_before_quote_pattern. unfold only at 1.
  cbn [matches flat_map ms_prev ms_rest ms_taken ms_group app].
  destruct (c =? 0x3000); cbn [andb flat_map app]; [|reflexivity].
  cbn [matches flat_map ms_prev ms_rest ms_taken ms_group app].
  now destruct (holds (only 0x300D) (hd_error t)).
Qed.

(** [remove_fullwidth_space_before_closing_quote] drops exactly the
    characters U+3000 that stand immediately before a U+300D and keeps every
    other character; of several U+3000 before a U+300D only the last one
    goes. *)
Theorem closing_quote_pointwise (text : pystr) (n : nat) :
  remove_fullwidth_space_before_closing_quote text =
    pointwise (fun i c => if space_before_quote text i then [] else [c]) text /\
  remove_fullwidth_space_before_closing_quote
    (repeat 0x3000 (S n) ++ [0x300D]) = repeat 0x3000 n ++ [0x300D].
Proof.
  assert (E : forall t,
             remove_fullwidth_space_before_closing_quote t =
             rewrite_from (fun _ c next =>
                             if (c =? 0x3000) && holds (only 0x300D) next
                             then [] else [c]) None t).
  { intros t. unfold remove_fullwidth_space_before_closing_quote.
    rewrite sub_unfold. apply sub_rewrite_from. intros prev c t'.
    rewrite match_at_space_before_quote.
    destruct ((c =? 0x3000) && holds (only 0x300D) (hd_error t')); auto. }
  split.
  - rewrite E, <- pointwise_rewrite. apply pointwise_ext.
    intros i c Hc. unfold space_before_quote. now rewrite Hc.
  - rewrite E. generalize (@None char).
    induction n as [|n IH]; intros prev; [reflexivity|].
    change (repeat 0x3000 (S (S n)) ++ [0x300D])
      with (0x3000 :: repeat 0x3000 (S n) ++ [0x300D]).
    cbn [rewrite_from]. rewrite IH. reflexivity.
Qed.

(** ** What [str.replace] leaves behind *)

Lemma replace_nil (old new : pystr) : old <> [] -> replace old new [] = [].
Proof. destruct old; [congruence | reflexivity]. Qed.

Lemma replace_hit (old new t : pystr) :
  old <> [] -> startswith old t = true ->
  exists rest, t = old ++ rest /\
               replace old new t = new ++ replace old new rest.
Proof.
  intros Hold H. destruct (startswith_inv _ _ H) as [rest ->].
  exists rest. split; [reflexivity|].
  destruct old; [congruence | apply replace_cons_hit].
Qed.

Lemma replace_miss (old new : pystr) (c : char) (t : pystr) :
  old <> [] -> startswith old (c :: t) = false ->
  replace old new (c :: t) = c :: replace old new t.
Proof. destruct old; [congruence | intros _; apply replace_cons_miss]. Qed.

(** Induction on a text along the way [str.replace] reads it. *)
Lemma replace_ind (old : pystr) (P : pystr -> Prop) :
  old <> [] ->
  P [] ->
  (forall rest, P rest -> P (old ++ rest)) ->
  (forall c t, startswith old (c :: t) = false -> P t -> P (c :: t)) ->
  forall t, P t.
Proof.
  intros Hold Hnil Hhit Hmiss t.
  assert (H : forall n t, (List.length t <= n)%nat -> P t).
  { clear t. induction n as [|n IH]; intros t Hlen.
    - destruct t; [assumption | cbn in Hlen; lia].
    - destruct t as [|c t]; [assumption|].
      destruct (startswith old (c :: t)) eqn:E.
      + destruct (startswith_inv _ _ E) as [rest Hrest]. rewrite Hrest.
        apply Hhit, IH.
        apply (f_equal (@List.length _)) in Hrest.
        rewrite length_app in Hrest. cbn in Hlen, Hrest.
        destruct old; [congruence | cbn in Hrest; lia].
      + apply Hmiss; [assumption|]. apply IH. cbn in Hlen. lia. }
  now apply (H (List.length t)).
Qed.

Lemma startswith_app_new (p new l : pystr) :
  p <> [] -> new <> [] -> (forall c, In c p -> ~ In c new) ->
  startswith p (new ++ l) = false.
Proof.
  intros Hp Hnew Hdis. destruct p as [|y p]; [congruence|].
  destruct new as [|n0 new]; [congruence|].
  cbn [app]. apply startswith_head. intros ->.
  apply (Hdis n0); now left.
Qed.

Lemma contains_cons (p : pystr) (c : char) (t : pystr) :
  contains p (c :: t) = startswith p (c :: t) || contains p t.
Proof. reflexivity. Qed.

Lemma contains_app_new (p new l : pystr) :
  p <> [] -> (forall c, In c p -> ~ In c new) ->
  contains p (new ++ l) = contains p l.
Proof.
  intros Hp Hdis. induction new as [|n0 new IH]; [reflexivity|].
  change ((n0 :: new) ++ l) with (n0 :: (new ++ l)).
  rewrite contains_cons.
  change (n0 :: (new ++ l)) with ((n0 :: new) ++ l).
  rewrite (startswith_app_new p (n0 :: new) l); [| assumption | discriminate
                                                 | assumption].
  cbn [orb]. apply IH. intros c Hc Hin. apply (Hdis c Hc). now right.
Qed.

Lemma contains_app_r (p a l : pystr) :
  contains p l = true -> contains p (a ++ l) = true.
Proof.
  intros H. induction a as [|c a IH]; [assumption|].
  cbn [app]. rewrite contains_cons, IH. apply orb_true_r.
Qed.

(** Where the replacement shares no character with [p], the result starts
    with [p] only if the text did. *)
Lemma startswith_replace (old new : pystr) :
  old <> [] -> new <> [] ->
  forall p t,
    (forall c, In c p -> ~ In c new) ->
    startswith p (replace old new t) = true -> startswith p t = true.
Proof.
  intros Hold Hnew. induction p as [|y p IH]; intros t Hdis H;
    [reflexivity|].
  destruct t as [|c t]; [now rewrite replace_nil in H|].
  destruct (startswith old (c :: t)) eqn:E.
  - destruct (replace_hit old new (c :: t) Hold E) as (rest & _ & Hr).
    rewrite Hr, startswith_app_new in H; [discriminate | discriminate
                                          | assumption | assumption].
  - rewrite replace_miss in H by assumption. cbn [startswith] in *.
    apply andb_true_iff in H as [-> H]. cbn [andb].
    apply IH; [|assumption]. intros d Hd. apply Hdis. now right.
Qed.

(** Such a replacement creates no occurrence of [p]. *)
Lemma contains_replace (old new p : pystr) :
  old <> [] -> new <> [] -> p <> [] ->
  (forall c, In c p -> ~ In c new) ->
  forall t, contains p t = false -> contains p (replace old new t) = false.
Proof.
  intros Hold Hnew Hp Hdis t. pattern t. apply (replace_ind old); [assumption | | |].
  - intros _. rewrite replace_nil by assumption.
    destruct p; [congruence | reflexivity].
  - intros rest IH H.
    destruct (replace_hit old new (old ++ rest) Hold (startswith_app _ _))
      as (rest' & Hrest & ->).
    apply app_inv_head in Hrest. subst rest'.
    rewrite contains_app_new by assumption. apply IH.
    destruct (contains p rest) eqn:E; [|reflexivity].
    now rewrite (contains_app_r p old rest E) in H.
  - intros c t' E IH H. rewrite replace_miss by assumption.
    rewrite contains_cons in H. apply orb_false_iff in H as [H1 H2].
    rewrite contains_cons, (IH H2), orb_false_r.
    destruct (startswith p (c :: replace old new t')) eqn:S; [|reflexivity].
    rewrite <- (replace_miss old new c t' Hold E) in S.
    apply startswith_replace in S; try assumption. congruence.
Qed.

(** A replacement that shares no character with [old] leaves no occurrence
    of [old]. *)
Lemma replace_removes (old new : pystr) :
  old <> [] -> new <> [] ->
  (forall c, In c old -> ~ In c new) ->
  forall t, contains old (replace old new t) = false.
Proof.
  intros Hold Hnew Hdis t. pattern t. apply (replace_ind old); [assumption | | |].
  - rewrite replace_nil by assumption.
    destruct old; [congruence | reflexivity].
  - intros rest IH.
    destruct (replace_hit old new (old ++ rest) Hold (startswith_app _ _))
      as (rest' & Hrest & ->).
    apply app_inv_head in Hrest. subst rest'.
    now rewrite contains_app_new.
  - intros c t' E IH. rewrite replace_miss by assumption.
    rewrite contains_cons, IH, orb_false_r.
    destruct (startswith old (c :: replace old new t')) eqn:S; [|reflexivity].
    rewrite <- (replace_miss old new c t' Hold E) in S.
    apply startswith_replace in S; try assumption. congruence.
Qed.

(** A text without the substring is returned as it is. *)
Lemma replace_not_contained (old new t : pystr) :
  old <> [] -> contains old t = false -> replace old new t = t.
Proof.
  intros Hold. induction t as [|c t IH]; intros H;
    [now apply replace_nil|].
  rewrite contains_cons in H. apply orb_false_iff in H as [H1 H2].
  rewrite replace_miss by assumption. now rewrite IH.
Qed.

Lemma replace_length_le (old new : pystr) :
  old <> [] -> (List.length new <= List.length old)%nat ->
  forall t, (List.length (replace old new t) <= List.length t)%nat.
Proof.
  intros Hold Hlen t. pattern t. apply (replace_ind old); [assumption | | |].
  - now rewrite replace_nil.
  - intros rest IH.
    destruct (replace_hit old new (old ++ rest) Hold (startswith_app _ _))
      as (rest' & Hrest & ->).
    apply app_inv_head in Hrest. subst rest'.
    rewrite !length_app. lia.
  - intros c t' E IH. rewrite replace_miss by assumption. cbn. lia.
Qed.

(** ** [convert_specific_symbols] *)

Ltac no_shared_char :=
  let c := fresh "c" in
  let H := fresh "H" in
  let H' := fresh "H" in
  intros c H H'; cbn in H, H'; lia.

(** The result of [convert_specific_symbols] holds no middle dot U+00B7, no
    two U+2500 in a row, no two U+2013 in a row, no three ASCII dots in a
    row and no ASCII question mark, and it is never longer than the text. *)
Theorem specific_symbols_leave_none (text : pystr) :
  contains [0xB7] (convert_specific_symbols text) = false /\
  contains [0x2500; 0x2500] (convert_specific_symbols text) = false /\
  contains [0x2013; 0x2013] (convert_specific_symbols text) = false /\
  contains (str "...") (convert_specific_symbols text) = false /\
  contains (str "?") (convert_specific_symbols text) = false /\
  (List.length (convert_specific_symbols text) <= List.length text)%nat.
Proof.
  unfold convert_specific_symbols. literal.
  repeat split.
  - do 5 (apply contains_replace;
          [discriminate | discriminate | discriminate | no_shared_char |]).
    apply replace_removes; [discriminate | discriminate | no_shared_char].
  - do 4 (apply contains_replace;
          [discriminate | discriminate | discriminate | no_shared_char |]).
    apply replace_removes; [discriminate | discriminate | no_shared_char].
  - do 3 (apply contains_replace;
          [discriminate | discriminate | discriminate | no_shared_char |]).
    apply replace_removes; [discriminate | discriminate | no_shared_char].
  - do 2 (apply contains_replace;
          [discriminate | discriminate | discriminate | no_shared_char |]).
    apply replace_removes; [discriminate | discriminate | no_shared_char].
  - apply contains_replace;
      [discriminate | discriminate | discriminate | no_shared_char |].
    apply replace_removes; [discriminate | discriminate | no_shared_char].
  - repeat (etransitivity;
            [apply replace_length_le; [discriminate | cbn; lia]|]).
    reflexivity.
Qed.

Lemma not_in_repeat (x c : char) (n : nat) : x <> c -> ~ In x (repeat c n).
Proof. intros H Hin. apply repeat_spec in Hin. congruence. Qed.

(** [convert_specific_symbols] removes one space after a question mark, not
    more: an ASCII or a full-width question mark followed by [n + 1] spaces
    comes out as a full-width question mark followed by [n] spaces. *)
Theorem specific_symbols_one_space (n : nat) :
  convert_specific_symbols (str "?" ++ repeat 32 (S n)) =
    [0xFF1F] ++ repeat 32 n /\
  convert_specific_symbols ([0xFF1F] ++ repeat 32 (S n)) =
    [0xFF1F] ++ repeat 32 n.
Proof.
  assert (Last : replace [0xFF1F; 32] [0xFF1F] ([0xFF1F] ++ repeat 32 (S n)) =
                 [0xFF1F] ++ repeat 32 n).
  { change ([0xFF1F] ++ repeat 32 (S n))
      with ([0xFF1F; 32] ++ repeat 32 n).
    rewrite replace_cons_hit. f_equal.
    apply replace_absent, not_in_repeat. lia. }
  assert (A : forall x old new q,
             x <> q -> x <> 32 ->
             replace (x :: old) new ([q] ++ repeat 32 (S n)) =
             [q] ++ repeat 32 (S n)).
  { intros x old new q Hq Hs. apply replace_absent. intros [H | H].
    - congruence.
    - revert H. now apply not_in_repeat. }
  unfold convert_specific_symbols. literal. split.
  - rewrite !A by lia. rewrite (replace_char 63), flat_map_app.
    assert (F : forall m,
               flat_map (fun c => if 63 =? c then [0xFF1F] else [c])
                 (repeat 32 m) = repeat 32 m).
    { induction m as [|m IH]; [reflexivity|].
      cbn [repeat flat_map]. now rewrite IH. }
    rewrite F. exact Last.
  - rewrite !A by lia. exact Last.
Qed.

(** ** [replace_br_tag] *)

(** [replace_br_tag] returns a text without the exact substring [<br>] as
    it is, so that [<BR>], [<br/>] and [<br >] are not break tags for it;
    its result never holds [<br>]; a [<br>] after a text without [<] becomes
    two newlines and the pass goes on behind it; and [process_text] turns
    [<br>] into two newlines. *)
Theorem replace_br_tag_exact (rand : nat -> N) (text pre post any : pystr) :
  contains (str "<br>") text = false ->
  ~ In (ch "<") pre ->
  replace_br_tag text = text /\
  contains (str "<br>") (replace_br_tag any) = false /\
  replace_br_tag (pre ++ str "<br>" ++ post) =
    pre ++ [10; 10] ++ replace_br_tag post /\
  process_text rand (str "<br>") = [10; 10].
Proof.
  intros Htext Hpre. unfold replace_br_tag. literal. repeat split.
  - now apply replace_not_contained.
  - apply replace_removes; [discriminate | discriminate | no_shared_char].
  - induction pre as [|c pre IH].
    + cbn [app]. apply (replace_cons_hit 60 [98; 114; 62]).
    + cbn [app]. rewrite replace_cons_miss.
      * f_equal. apply IH. intros H. apply Hpre. now right.
      * apply startswith_head. intros E. apply Hpre. left.
        symmetry. exact E.
Qed.

Lemma replace_br_tag_exact_witness :
  replace_br_tag (str "<BR><br/><br >") = str "<BR><br/><br >" /\
  replace_br_tag (str "a" ++ str "<br>" ++ str "b<br>") =
    str "a" ++ [10; 10] ++ replace_br_tag (str "b<br>").
Proof.
  destruct (replace_br_tag_exact (fun _ => 0%N) (str "<BR><br/><br >")
              (str "a") (str "b<br>") []) as (H1 & _ & H3 & _).
  - reflexivity.
  - cbn. intros [H | []]. discriminate.
  - split; [exact H1 | exact H3].
Defined.
